(** * chiral-network: region classification, reputation, rendezvous and
      download coordination

    The geolocation service ([src/lib/services/geolocation.ts]) is embedded
    from its source:

    - its region catalogue ([GEO_REGIONS] and [UNKNOWN_REGION_ID] of
      [$lib/geo]) is not part of the sources at hand and is a parameter;
    - JavaScript numbers are kept behind an interface ([JsNumber]) that names
      the operations the service uses.  What is proved of the distance and of
      the coordinate lookup holds for every instance that obeys the laws the
      theorem names: laws of order, of sign and of computing with 0 that
      hold of IEEE-754 doubles, none of which says how an operation rounds.
      [Exact] is an instance without rounding; it shows that the laws can be
      met, and it computes what the service does with a [NaN];
    - strings are strings of 8-bit characters and [toLowerCase] maps the
      ASCII letters, which is what IANA timezone identifiers are made of;
    - the browser ([navigator.geolocation], [Intl]) is an input of
      [detectUserRegion]: the position and the timezone it answers with.

    The reputation store, the rendezvous server and the download coordinator
    have no source here; they are modelled from the specification, and each
    such definition says so.  Scores are numbers of an interface
    ([ScoreNumber]) with two instances: binary64, as primitive floats, and
    the rationals. *)

From Stdlib Require Import Floats.
From Stdlib Require Import String Ascii List Bool NArith ZArith QArith Qround Lia.
From Stdlib Require Import Reals.
From Stdlib Require Lra Lqa.
From stdpp Require Import gmap strings.
Import ListNotations.

Local Open Scope string_scope.
Local Open Scope list_scope.
Local Open Scope bool_scope.

(** ** Strings and the regular expressions of the timezone rules *)

Module Str.

(** [String.prototype.toLowerCase] on one character: A-Z go to a-z, every
    other 8-bit character stays. *)
Definition lower_ascii (c : ascii) : ascii :=
  let n := N_of_ascii c in
  if ((65 <=? n) && (n <=? 90))%N then ascii_of_N (n + 32) else c.

Fixpoint toLowerCase (s : string) : string :=
  match s with
  | EmptyString => EmptyString
  | String c s' => String (lower_ascii c) (toLowerCase s')
  end.

(** [strip_prefix p s] is the rest of [s] after the literal [p], when [s]
    starts with [p]. *)
Fixpoint strip_prefix (p s : string) : option string :=
  match p with
  | EmptyString => Some s
  | String a p' =>
      match s with
      | EmptyString => None
      | String b s' => if Ascii.eqb a b then strip_prefix p' s' else None
      end
  end.

(** The rules only use regular expressions that are a sequence of groups,
    each group an alternation of literals: [/america\/(lima|bogota)/] is
    [[["america/"]; ["lima"; "bogota"]]]. *)
Definition pattern := list (list string).

(** A match of the whole pattern starting at the first character. *)
Fixpoint match_here (p : pattern) (s : string) : bool :=
  match p with
  | [] => true
  | alts :: p' =>
      existsb (fun a => match strip_prefix a s with
                        | Some rest => match_here p' rest
                        | None => false
                        end) alts
  end.

(** [RegExp.prototype.test] without anchors: a match starting anywhere. *)
Fixpoint regex_test (p : pattern) (s : string) : bool :=
  match_here p s ||
  match s with
  | EmptyString => false
  | String _ s' => regex_test p s'
  end.

End Str.

(** ** geolocation.ts *)

Module Geo.
Import Str.

Inductive GeolocationSource := browser | timezone_source | fallback.

(** [GeoRegionConfig] of [$lib/geo]: the fields the service reads.  The
    coordinates are numbers of type [num]. *)
Record GeoRegionConfig (num : Type) := mkRegion {
  id : string;
  lat : num;
  lng : num
}.
Arguments mkRegion {num} _ _ _.
Arguments id {num} _.
Arguments lat {num} _.
Arguments lng {num} _.

Record GeolocationResult (num : Type) := mkResult {
  region : option (GeoRegionConfig num);
  source : GeolocationSource
}.
Arguments mkResult {num} _ _.
Arguments region {num} _.
Arguments source {num} _.

(** One entry of the [matchers] array. *)
Record Matcher := mkMatcher {
  test : string -> bool;
  regionId : string
}.

Definition usWest_pattern : pattern :=
  [["america/"];
   ["los_angeles"; "vancouver"; "whitehorse"; "sitka"; "anchorage";
    "metlakatla"; "juneau"; "yakutat"; "tijuana"; "phoenix"; "boise";
    "denver"; "edmonton"; "dawson"; "hermosillo"; "mazatlan"; "yellowknife";
    "dawson_creek"]].

Definition southAmerica_cities : list string :=
  ["argentina"; "buenos_aires"; "santiago"; "sao_paulo"; "bogota"; "lima";
   "la_paz"; "montevideo"; "caracas"; "asuncion"; "guayaquil"; "fortaleza";
   "bahia"; "recife"; "belem"; "manaus"; "cuiaba"; "porto_velho";
   "campo_grande"; "rio_branco"; "maceio"; "cayenne"; "paramaribo"; "bogota"].

Definition southAmerica_pattern : pattern :=
  [["america/"]; southAmerica_cities].

Definition america_pattern : pattern := [["america/"]].

Definition euCentral_pattern : pattern :=
  [["europe/"];
   ["berlin"; "vienna"; "warsaw"; "prague"; "budapest"; "zurich"; "amsterdam";
    "brussels"; "stockholm"; "oslo"; "copenhagen"; "rome"; "madrid"; "paris";
    "prague"; "bucharest"; "sofia"; "athens"; "helsinki"; "tallinn"; "riga";
    "vilnius"; "belgrade"; "zagreb"; "ljubljana"; "sarajevo"; "skopje"; "kiev";
    "moscow"; "minsk"]].

Definition euWest_pattern : pattern :=
  [["europe/"];
   ["london"; "dublin"; "lisbon"; "reykjavik"; "isle_of_man"; "jersey";
    "guernsey"]].

Definition europe_pattern : pattern := [["europe/"]].

Definition asiaEast_cities : list string :=
  ["tokyo"; "seoul"; "shanghai"; "chongqing"; "hong_kong"; "taipei"; "macau";
   "harbin"; "urumqi"; "pyongyang"].

Definition asiaEast_pattern : pattern := [["asia/"]; asiaEast_cities].

Definition asiaPacific_pattern : pattern :=
  [["asia/"];
   ["singapore"; "kuala_lumpur"; "jakarta"; "manila"; "ho_chi_minh"; "bangkok";
    "yangon"; "phnom_penh"; "vientiane"; "calcutta"; "kolkata"; "mumbai";
    "delhi"; "bangalore"; "chennai"; "kathmandu"; "dhaka"; "colombo";
    "karachi"; "kabul"; "tehran"; "dubai"; "riyadh"; "bahrain"; "qatar";
    "muscat"; "kuwait"]].

Definition indian_pattern : pattern := [["indian/"]].

Definition asia_pattern : pattern := [["asia/"]].

Definition oceania_pattern : pattern :=
  [["australia"; "pacific"]; ["/"];
   ["sydney"; "melbourne"; "brisbane"; "perth"; "adelaide"; "hobart"; "darwin";
    "auckland"; "wellington"; "fiji"; "guam"; "port_moresby"; "noumea";
    "tahiti"; "honolulu"]].

Definition oceania_any_pattern : pattern := [["australia"; "pacific"]; ["/"]].

Definition africa_pattern : pattern :=
  [["africa/"];
   ["cairo"; "johannesburg"; "lagos"; "nairobi"; "casablanca"; "algiers";
    "tunis"; "accra"; "addis_ababa"; "khartoum"; "dar_es_salaam"; "kampala";
    "harare"; "lusaka"; "maputo"; "kinshasa"; "luanda"; "windhoek"; "gaborone";
    "cape_town"]].

Definition africa_any_pattern : pattern := [["africa/"]].

Definition azores_pattern : pattern := [["atlantic/azores"]].
Definition bermuda_pattern : pattern := [["atlantic/bermuda"]].
Definition atlantic_pattern : pattern := [["atlantic/"]].

Definition usWest_matcher : Matcher :=
  mkMatcher (fun value => regex_test usWest_pattern value) "usWest".
Definition southAmerica_matcher : Matcher :=
  mkMatcher (fun value => regex_test southAmerica_pattern value) "southAmerica".
Definition america_matcher : Matcher :=
  mkMatcher (fun value => regex_test america_pattern value) "usEast".
Definition asiaEast_matcher : Matcher :=
  mkMatcher (fun value => regex_test asiaEast_pattern value) "asiaEast".
Definition asia_matcher : Matcher :=
  mkMatcher (fun value => regex_test asia_pattern value) "asiaPacific".

(** The [matchers] array, in the order of the source. *)
Definition matchers : list Matcher :=
  [ usWest_matcher;
    southAmerica_matcher;
    america_matcher;
    mkMatcher (fun value => regex_test euCentral_pattern value) "euCentral";
    mkMatcher (fun value => regex_test euWest_pattern value) "euWest";
    mkMatcher (fun value => regex_test europe_pattern value) "euCentral";
    asiaEast_matcher;
    mkMatcher (fun value => regex_test asiaPacific_pattern value) "asiaPacific";
    mkMatcher (fun value => regex_test indian_pattern value) "asiaPacific";
    asia_matcher;
    mkMatcher (fun value => regex_test oceania_pattern value) "oceania";
    mkMatcher (fun value => regex_test oceania_any_pattern value) "oceania";
    mkMatcher (fun value => regex_test africa_pattern value) "africa";
    mkMatcher (fun value => regex_test africa_any_pattern value) "africa";
    mkMatcher (fun value => regex_test azores_pattern value) "euWest";
    mkMatcher (fun value => regex_test bermuda_pattern value) "usEast";
    mkMatcher (fun value => regex_test atlantic_pattern value) "euWest" ].

(** The rules after the South-America rule: the generic Americas catch-all
    comes first among them. *)
Definition rules_after_southAmerica : list Matcher := skipn 2 matchers.

(** The rules before the East-Asia rule, and those after it. *)
Definition rules_before_asiaEast : list Matcher := firstn 6 matchers.
Definition rules_after_asiaEast : list Matcher := skipn 7 matchers.

(** For "asia/<city>", city by city: no earlier rule matches, the East-Asia
    rule does, and so does the Asia catch-all. *)
Definition asiaEast_city_check (city : string) : bool :=
  let tz := String.append "asia/" city in
  forallb (fun m' => negb (test m' tz)) rules_before_asiaEast
  && test asiaEast_matcher tz && test asia_matcher tz.

Section Catalogue.

Context {num : Type}.

(** The catalogue of [$lib/geo] and the id of its sentinel entry. *)
Variable GEO_REGIONS : list (GeoRegionConfig num).
Variable UNKNOWN_REGION_ID : string.

Definition REGION_CANDIDATES : list (GeoRegionConfig num) :=
  List.filter (fun region => negb (String.eqb (id region) UNKNOWN_REGION_ID))
              GEO_REGIONS.

(** [undefined] is [None]: the catalogue may hold no candidate at all. *)
Definition FALLBACK_REGION : option (GeoRegionConfig num) :=
  match List.find (fun region => String.eqb (id region) "usEast")
                  REGION_CANDIDATES with
  | Some region => Some region
  | None => List.head REGION_CANDIDATES
  end.

(** [REGION_CANDIDATES.find((item) => item.id === regionId)] *)
Definition find_region (regionId : string) : option (GeoRegionConfig num) :=
  List.find (fun item => String.eqb (id item) regionId) REGION_CANDIDATES.

(** The [for (const matcher of matchers)] loop. *)
Fixpoint matcher_loop (ms : list Matcher) (tz : string)
  : option (GeoRegionConfig num) :=
  match ms with
  | [] => None
  | matcher :: rest =>
      if test matcher tz then
        match find_region (regionId matcher) with
        | Some region => Some region
        | None => matcher_loop rest tz
        end
      else matcher_loop rest tz
  end.

Definition inferRegionFromTimezone (timezone : string)
  : option (GeoRegionConfig num) :=
  let tz := toLowerCase timezone in
  matcher_loop matchers tz.

(** The timezone lookup the way the specification words it: the region of
    the first rule whose pattern matches, none when no rule matches. *)
Definition first_rule_region (timezone : string)
  : option (GeoRegionConfig num) :=
  match List.find (fun m => test m (toLowerCase timezone)) matchers with
  | Some m => find_region (regionId m)
  | None => None
  end.

End Catalogue.

(** A catalogue from before the East-Asia, Central-Europe and South-America
    regions: coordinates in whole degrees. *)
Definition small_catalogue : list (GeoRegionConfig Z) :=
  [ mkRegion "usEast" 39 (-77);
    mkRegion "usWest" 37 (-122);
    mkRegion "euWest" 53 (-6);
    mkRegion "asiaPacific" 1 104;
    mkRegion "unknown" 0 0 ]%Z.

(** A catalogue with a region for every rule. *)
Definition full_catalogue : list (GeoRegionConfig Z) :=
  [ mkRegion "usEast" 39 (-77);
    mkRegion "usWest" 37 (-122);
    mkRegion "euWest" 53 (-6);
    mkRegion "euCentral" 50 9;
    mkRegion "asiaPacific" 1 104;
    mkRegion "asiaEast" 36 140;
    mkRegion "southAmerica" (-23) (-47);
    mkRegion "africa" (-26) 28;
    mkRegion "oceania" (-34) 151;
    mkRegion "unknown" 0 0 ]%Z.

(** *** Numbers

    The service computes with JavaScript numbers (IEEE-754 doubles) and the
    [Math] library.  The embedding names the operations it uses and leaves
    their arithmetic to an instance. *)
Class JsNumber (num : Type) := {
  num_lit : Z -> num;                       (* integer literals *)
  Math_PI : num;
  num_add : num -> num -> num;
  num_sub : num -> num -> num;
  num_mul : num -> num -> num;
  num_div : num -> num -> num;
  Math_sin : num -> num;
  Math_cos : num -> num;
  Math_sqrt : num -> num;
  Math_atan2 : num -> num -> num;
  num_lt : num -> num -> bool;              (* x < y *)
  Number_POSITIVE_INFINITY : num
}.

Section Distance.

Context {num : Type} `{JsNumber num}.

Definition toRadians (value : num) : num :=
  num_div (num_mul value Math_PI) (num_lit 180).

Definition haversineDistance (lat1 lng1 lat2 lng2 : num) : num :=
  let R := num_lit 6371 in
  let dLat := toRadians (num_sub lat2 lat1) in
  let dLng := toRadians (num_sub lng2 lng1) in
  let a :=
    num_add
      (num_mul (Math_sin (num_div dLat (num_lit 2)))
               (Math_sin (num_div dLat (num_lit 2))))
      (num_mul
         (num_mul
            (num_mul (Math_cos (toRadians lat1)) (Math_cos (toRadians lat2)))
            (Math_sin (num_div dLng (num_lit 2))))
         (Math_sin (num_div dLng (num_lit 2)))) in
  let c :=
    num_mul (num_lit 2)
            (Math_atan2 (Math_sqrt a) (Math_sqrt (num_sub (num_lit 1) a))) in
  num_mul R c.

Definition calculateRegionDistance (a b : GeoRegionConfig num) : num :=
  haversineDistance (lat a) (lng a) (lat b) (lng b).

Variable GEO_REGIONS : list (GeoRegionConfig num).
Variable UNKNOWN_REGION_ID : string.

(** The loop variables [closest] and [minDistance] of [nearestRegion]. *)
Definition nearest_state : Type := (option (GeoRegionConfig num) * num)%type.

(** One turn of the [for (const region of REGION_CANDIDATES)] loop. *)
Definition nearest_step (lat0 lng0 : num) (st : nearest_state)
    (region : GeoRegionConfig num) : nearest_state :=
  let distance := haversineDistance lat0 lng0 (lat region) (lng region) in
  if num_lt distance (snd st) then (Some region, distance) else st.

Definition nearest_loop (lat0 lng0 : num) (regions : list (GeoRegionConfig num))
    (st : nearest_state) : nearest_state :=
  fold_left (nearest_step lat0 lng0) regions st.

Definition nearestRegion (lat0 lng0 : num) : option (GeoRegionConfig num) :=
  fst (nearest_loop lat0 lng0 (REGION_CANDIDATES GEO_REGIONS UNKNOWN_REGION_ID)
         (FALLBACK_REGION GEO_REGIONS UNKNOWN_REGION_ID,
          Number_POSITIVE_INFINITY)).

(** A number below [+Infinity]: any number but [NaN] and [+Infinity]. *)
Definition is_number (d : num) : Prop :=
  num_lt d Number_POSITIVE_INFINITY = true.

(** The distance from a coordinate to the reference point of a region. *)
Definition distance_to (lat0 lng0 : num) (region : GeoRegionConfig num) : num :=
  haversineDistance lat0 lng0 (lat region) (lng region).

(** [r] is the first region of [regions] at the least distance from the
    coordinate: every region before it is strictly farther, no region after
    it is strictly nearer. *)
Definition first_minimum (lat0 lng0 : num) (regions : list (GeoRegionConfig num))
    (r : GeoRegionConfig num) : Prop :=
  exists pre post,
    regions = pre ++ r :: post /\
    (forall r', In r' pre ->
                num_lt (distance_to lat0 lng0 r) (distance_to lat0 lng0 r') = true) /\
    (forall r', In r' post ->
                num_lt (distance_to lat0 lng0 r') (distance_to lat0 lng0 r) = false).

(** What the browser answers to the two probes of [detectUserRegion]:
    [coords] is the position [getCurrentPosition] resolves with, [None] when
    there is no [navigator.geolocation] or the request is rejected;
    [timeZone] is [Intl.DateTimeFormat().resolvedOptions().timeZone], [None]
    when [Intl] is missing. *)
Record Environment := mkEnv {
  coords : option (num * num);
  timeZone : option string
}.

Definition detectFromBrowserGeolocation (env : Environment)
  : option (GeoRegionConfig num) :=
  match coords env with
  | None => None
  | Some (latitude, longitude) => nearestRegion latitude longitude
  end.

Definition detectFromTimezone (env : Environment)
  : option (GeoRegionConfig num) :=
  match timeZone env with
  | None => None
  | Some timezone =>
      if String.eqb timezone "" then None
      else inferRegionFromTimezone GEO_REGIONS UNKNOWN_REGION_ID timezone
  end.

Definition detectUserRegion (env : Environment) : GeolocationResult num :=
  match detectFromBrowserGeolocation env with
  | Some browserRegion => mkResult (Some browserRegion) browser
  | None =>
      match detectFromTimezone env with
      | Some timezoneRegion => mkResult (Some timezoneRegion) timezone_source
      | None => mkResult (FALLBACK_REGION GEO_REGIONS UNKNOWN_REGION_ID) fallback
      end
  end.

End Distance.

(** *** Laws of the numbers

    What the symmetry of the distance and the distance of a point to itself
    need of the arithmetic.  Each law below holds of IEEE-754 doubles with
    the [Math] functions of ECMAScript, [NaN] read as one value; none of them
    says how an operation rounds. *)

(** Unary minus and [===].  The service uses neither: the laws of sign name
    the first, the comparison of two distances the second. *)
Class JsCompare (num : Type) := {
  num_neg : num -> num;
  num_eq : num -> num -> bool
}.

Section Laws.

Context {num : Type} `{JsNumber num} `{JsCompare num}.

(** [x < 0] is false: [x] is [0], above [0], or [NaN]. *)
Definition not_below_zero (x : num) : Prop := num_lt x (num_lit 0) = false.

(** A coordinate whose two numbers are finite ([x - x] is [0] for these
    only) and the cosine of whose latitude is a number. *)
Definition finite_point (lat0 lng0 : num) : Prop :=
  num_sub lat0 lat0 = num_lit 0 /\
  num_sub lng0 lng0 = num_lit 0 /\
  is_number (Math_cos (toRadians lat0)).

(** Computing with [+0]. *)
Record zero_laws : Prop := {
  law_zero_number : is_number (num_lit 0);
  law_zero_times_pi : num_mul (num_lit 0) Math_PI = num_lit 0;
  law_zero_over :
    forall z, (0 < z < 9007199254740992)%Z ->
              num_div (num_lit 0) (num_lit z) = num_lit 0;
  law_sin_zero : Math_sin (num_lit 0) = num_lit 0;
  law_zero_times_zero : num_mul (num_lit 0) (num_lit 0) = num_lit 0;
  law_square_times_zero :
    forall x, is_number (Math_cos x) ->
              num_mul (num_mul (Math_cos x) (Math_cos x)) (num_lit 0) = num_lit 0;
  law_zero_plus_zero : num_add (num_lit 0) (num_lit 0) = num_lit 0;
  law_sqrt_zero : Math_sqrt (num_lit 0) = num_lit 0;
  law_one_minus_zero : num_sub (num_lit 1) (num_lit 0) = num_lit 1;
  law_sqrt_one : Math_sqrt (num_lit 1) = num_lit 1;
  law_atan2_zero_one : Math_atan2 (num_lit 0) (num_lit 1) = num_lit 0;
  law_times_zero :
    forall z, (0 < z < 9007199254740992)%Z ->
              num_mul (num_lit z) (num_lit 0) = num_lit 0
}.

(** Signs: a difference taken the other way round is the same number (0 or
    [NaN]) or its opposite, and the opposite goes through products and
    quotients, and through the sine, which is odd in the routines the
    engines compute it with. *)
Record sign_laws : Prop := {
  law_mul_comm : forall x y, num_mul x y = num_mul y x;
  law_sub_flip :
    forall x y, num_sub x y = num_sub y x \/ num_sub x y = num_neg (num_sub y x);
  law_mul_neg : forall x y, num_mul (num_neg x) y = num_neg (num_mul x y);
  law_mul_neg_neg : forall x y, num_mul (num_neg x) (num_neg y) = num_mul x y;
  law_div_neg : forall x y, num_div (num_neg x) y = num_neg (num_div x y);
  law_sin_neg : forall x, Math_sin (num_neg x) = num_neg (Math_sin x)
}.

(** [x === x] for every number below [+Infinity]; it is false of [NaN]. *)
Definition equality_law : Prop :=
  forall x : num, is_number x -> num_eq x x = true.

(** Nothing below zero comes out of the last steps of the haversine formula:
    the angle [atan2 (sqrt a) (sqrt (1 - a))] and its products with the
    positive literals. *)
Record distance_laws : Prop := {
  law_angle :
    forall a, not_below_zero
                (Math_atan2 (Math_sqrt a) (Math_sqrt (num_sub (num_lit 1) a)));
  law_times_literal :
    forall z x, (0 < z < 9007199254740992)%Z ->
                not_below_zero x -> not_below_zero (num_mul (num_lit z) x)
}.

End Laws.

End Geo.

(** ** Exact numbers

    An instance of [JsNumber] without rounding: the real numbers, with
    [+Infinity] and [NaN] next to them.  The square root of a negative number
    is [NaN]; the instance has no negative infinity, and a quotient by zero
    or an operation on [+Infinity], which the distance of two real
    coordinates never meets, is [NaN] as well.

    These are not the doubles of the service: rounding can take the [a] of
    the haversine formula above 1, and the distance is then [NaN] where this
    instance has a real number.  The instance obeys the laws of [Geo], and a
    [NaN] goes through its operations as it goes through those of doubles;
    no more than that is taken from it. *)
Module Exact.
Import Geo.

Inductive xnum := Finite (r : R) | Infinity | NaN.

Definition lift1 (f : R -> R) (x : xnum) : xnum :=
  match x with Finite a => Finite (f a) | _ => NaN end.

Definition lift2 (f : R -> R -> R) (x y : xnum) : xnum :=
  match x, y with Finite a, Finite b => Finite (f a b) | _, _ => NaN end.

(** [Math.atan2] on real numbers, with the value 0 at the origin. *)
Definition Ratan2 (y x : R) : R :=
  if Rlt_dec 0 x then atan (y / x)
  else if Rlt_dec x 0 then
    if Rle_dec 0 y then atan (y / x) + PI else atan (y / x) - PI
  else if Rlt_dec 0 y then PI / 2
  else if Rlt_dec y 0 then - (PI / 2)
  else 0.

Definition xdiv (x y : xnum) : xnum :=
  match x, y with
  | Finite a, Finite b => if Req_EM_T b 0 then NaN else Finite (a / b)
  | _, _ => NaN
  end.

Definition xsqrt (x : xnum) : xnum :=
  match x with
  | Finite a => if Rle_dec 0 a then Finite (sqrt a) else NaN
  | _ => NaN
  end.

Definition is_finite (x : xnum) : bool :=
  match x with Finite _ => true | _ => false end.

Definition xlt (x y : xnum) : bool :=
  match x, y with
  | Finite a, Finite b => if Rlt_dec a b then true else false
  | Finite _, Infinity => true
  | _, _ => false
  end.

#[export] Instance xnum_number : JsNumber xnum := {|
  num_lit := fun z => Finite (IZR z);
  Math_PI := Finite PI;
  num_add := lift2 Rplus;
  num_sub := lift2 Rminus;
  num_mul := lift2 Rmult;
  num_div := xdiv;
  Math_sin := lift1 sin;
  Math_cos := lift1 cos;
  Math_sqrt := xsqrt;
  Math_atan2 := lift2 Ratan2;
  num_lt := xlt;
  Number_POSITIVE_INFINITY := Infinity
|}.

(** [===]: [NaN] is equal to nothing, itself included. *)
Definition xeq (x y : xnum) : bool :=
  match x, y with
  | Finite a, Finite b => if Req_EM_T a b then true else false
  | Infinity, Infinity => true
  | _, _ => false
  end.

#[export] Instance xnum_compare : JsCompare xnum := {|
  num_neg := lift1 Ropp;
  num_eq := xeq
|}.

(** The haversine formula on real numbers: what [haversineDistance] computes
    on [Finite] arguments. *)
Definition hav_a (lat1 lng1 lat2 lng2 : R) : R :=
  (sin ((lat2 - lat1) * PI / 180 / 2) * sin ((lat2 - lat1) * PI / 180 / 2)
   + cos (lat1 * PI / 180) * cos (lat2 * PI / 180)
     * sin ((lng2 - lng1) * PI / 180 / 2) * sin ((lng2 - lng1) * PI / 180 / 2))%R.

Definition hav (lat1 lng1 lat2 lng2 : R) : R :=
  (6371 * (2 * Ratan2 (sqrt (hav_a lat1 lng1 lat2 lng2))
                      (sqrt (1 - hav_a lat1 lng1 lat2 lng2))))%R.

(** Two catalogues with exact coordinates: one with two regions on the
    equator, half the globe apart, and one where two regions share their
    reference point. *)
Definition equator_catalogue : list (GeoRegionConfig xnum) :=
  [ mkRegion "oceania" (Finite 0) (Finite 180);
    mkRegion "unknown" (Finite 0) (Finite 0);
    mkRegion "africa" (Finite 0) (Finite 0) ].

Definition shared_point_catalogue : list (GeoRegionConfig xnum) :=
  [ mkRegion "euCentral" (Finite 50) (Finite 10);
    mkRegion "euWest" (Finite 50) (Finite 10);
    mkRegion "unknown" (Finite 0) (Finite 0) ].

End Exact.

(** ** Scores

    The score of the data model is a float.  The reputation store is written
    over the arithmetic of its scores, which has two instances here:
    IEEE-754 binary64, the float of the data model, and the rationals, which
    do not round. *)

Module Scores.

Class ScoreNumber (num : Type) := {
  score_zero : num;
  score_one : num;
  score_half : num;
  score_add : num -> num -> num;
  score_sub : num -> num -> num;
  score_mul : num -> num -> num;
  score_leb : num -> num -> bool;           (* x <= y *)
  score_ltb : num -> num -> bool            (* x < y *)
}.

#[export] Instance binary64 : ScoreNumber PrimFloat.float := {|
  score_zero := 0%float;
  score_one := 1%float;
  score_half := 0.5%float;
  score_add := PrimFloat.add;
  score_sub := PrimFloat.sub;
  score_mul := PrimFloat.mul;
  score_leb := PrimFloat.leb;
  score_ltb := PrimFloat.ltb
|}.

#[export] Instance rational : ScoreNumber Q := {|
  score_zero := 0%Q;
  score_one := 1%Q;
  score_half := (1 # 2)%Q;
  score_add := Qplus;
  score_sub := Qminus;
  score_mul := Qmult;
  score_leb := Qle_bool;
  score_ltb := fun x y => negb (Qle_bool y x)
|}.

Section Laws.

Context {num : Type} `{ScoreNumber num}.

(** A number of [[0,1]]. *)
Definition in_unit_range (x : num) : Prop :=
  score_leb score_zero x = true /\ score_leb x score_one = true.

(** What the bounds of a score need of the arithmetic, for numbers of
    [[0,1]]: the order is transitive; sum, difference and product are
    monotone; 0 and 1 act on them as they should; and [x + (1 - x)] is not
    above 1.  Each law holds of the rationals, and of binary64 with rounding
    to nearest: rounding is monotone and leaves a float as it is, and
    [1 - x] is off by at most a quarter of the gap between 1 and the next
    float.  None of the laws says that an operation is exact. *)
Record rounding_laws : Prop := {
  law_zero_one : in_unit_range score_zero /\ in_unit_range score_one;
  law_half : in_unit_range score_half;
  law_leb_trans :
    forall x y z, score_leb x y = true -> score_leb y z = true ->
                  score_leb x z = true;
  (* x <= x + 0 *)
  law_add_zero :
    forall x, in_unit_range x -> score_leb x (score_add x score_zero) = true;
  (* y <= y' gives x + y <= x + y' *)
  law_add_monotone :
    forall x y y', in_unit_range x -> in_unit_range y -> in_unit_range y' ->
                   score_leb y y' = true ->
                   score_leb (score_add x y) (score_add x y') = true;
  (* x + (1 - x) <= 1 *)
  law_add_complement :
    forall x, in_unit_range x ->
              score_leb (score_add x (score_sub score_one x)) score_one = true;
  (* x - 0 <= x *)
  law_sub_zero :
    forall x, in_unit_range x -> score_leb (score_sub x score_zero) x = true;
  (* 0 <= x - x *)
  law_sub_self :
    forall x, in_unit_range x -> score_leb score_zero (score_sub x x) = true;
  (* y <= y' gives x - y' <= x - y *)
  law_sub_antitone :
    forall x y y', in_unit_range x -> in_unit_range y -> in_unit_range y' ->
                   score_leb y y' = true ->
                   score_leb (score_sub x y') (score_sub x y) = true;
  (* 0 <= 0 * y *)
  law_mul_zero :
    forall y, in_unit_range y -> score_leb score_zero (score_mul score_zero y) = true;
  (* 1 * y <= y *)
  law_mul_one :
    forall y, in_unit_range y -> score_leb (score_mul score_one y) y = true;
  (* a <= b gives a * y <= b * y *)
  law_mul_monotone :
    forall a b y, in_unit_range a -> in_unit_range b -> in_unit_range y ->
                  score_leb a b = true ->
                  score_leb (score_mul a y) (score_mul b y) = true
}.

End Laws.

End Scores.

(** ** Reputation store *)

Module Reputation.
Import Scores.

Definition PeerId := string.

Inductive Outcome := Success | Failure | Timeout.

(** Modelled from the spec: [reputationService.ts] is not among the sources;
    this is the [ReputationEntry] of the data model, without the
    [lastUpdated] stamp that only the decay pass reads.  The score is a
    number of type [num]: a float, or a rational. *)
Record ReputationEntry (num : Type) := mkEntry {
  score : num;
  successCount : nat;
  failureCount : nat
}.
Arguments mkEntry {num} _ _ _.
Arguments score {num} _.
Arguments successCount {num} _.
Arguments failureCount {num} _.

Section Steps.

Context {num : Type} `{ScoreNumber num}.

(** Modelled from the spec: the neutral default score of a peer that has no
    entry yet, 0.5. *)
Definition neutral : num := score_half.

Definition fresh_entry : ReputationEntry num := mkEntry neutral 0 0.

(** The fractional steps of success and of failure, and the share of the
    failure step that a timeout costs. *)
Variables success_step failure_step timeout_share : num.

(** Modelled from the spec: the step of a timeout.  The spec has a timeout
    penalise less severely than a failure; its step is a share of the
    failure step. *)
Definition timeout_step : num := score_mul timeout_share failure_step.

(** Modelled from the spec: the score after one outcome.  Success moves the
    score toward 1 ([new = old + a (1 - old)]); failure and timeout move it
    toward 0 by their own fraction of the score. *)
Definition score_step (o : Outcome) (s : num) : num :=
  match o with
  | Success => score_add s (score_mul success_step (score_sub score_one s))
  | Failure => score_sub s (score_mul failure_step s)
  | Timeout => score_sub s (score_mul timeout_step s)
  end.

(** Modelled from the spec: the effect of one outcome on an entry; the
    counters count successes, and failures and timeouts together. *)
Definition apply_outcome (o : Outcome) (e : ReputationEntry num)
  : ReputationEntry num :=
  match o with
  | Success =>
      mkEntry (score_step Success (score e)) (S (successCount e)) (failureCount e)
  | Failure =>
      mkEntry (score_step Failure (score e)) (successCount e) (S (failureCount e))
  | Timeout =>
      mkEntry (score_step Timeout (score e)) (successCount e) (S (failureCount e))
  end.

(** Modelled from the spec: [record(peerId, outcome)]; the entry is created
    on the first record. *)
Definition record (store : gmap PeerId (ReputationEntry num)) (peerId : PeerId)
    (outcome : Outcome) : gmap PeerId (ReputationEntry num) :=
  <[peerId := apply_outcome outcome (default fresh_entry (store !! peerId))]>
    store.

(** Modelled from the spec: [score(peerId)]; an unknown peer has the neutral
    score and gets no entry. *)
Definition score_of (store : gmap PeerId (ReputationEntry num)) (peerId : PeerId)
  : num :=
  match store !! peerId with
  | Some e => score e
  | None => neutral
  end.

(** A history of recorded outcomes, replayed from the empty store. *)
Definition replay (events : list (PeerId * Outcome))
  : gmap PeerId (ReputationEntry num) :=
  fold_left (fun st ev => record st (fst ev) (snd ev)) events ∅.

(** The same outcome recorded [n] times for one peer. *)
Definition record_n (n : nat) (peerId : PeerId) (outcome : Outcome)
    (store : gmap PeerId (ReputationEntry num))
  : gmap PeerId (ReputationEntry num) :=
  Nat.iter n (fun st => record st peerId outcome) store.

End Steps.

(** Every score of a store of rational scores is strictly between 0 and 1. *)
Definition interior (st : gmap PeerId (ReputationEntry Q)) : Prop :=
  forall p, (0 < score_of st p /\ score_of st p < 1)%Q.

End Reputation.

(** ** Rendezvous channel *)

Module Rendezvous.
Import Reputation.

(** Modelled from the spec: the two kinds of message a client sends;
    [signalingService.ts] and the server are not among the sources. *)
Inductive ClientMessage :=
| Directed (to : PeerId) (type : string) (data : string)
| Broadcast (type : string) (payload : string).

(** Modelled from the spec: what a client receives, the sender stamped by the
    server. *)
Record Delivery := mkDelivery {
  from : PeerId;
  body : ClientMessage
}.

(** Modelled from the spec: the server, as the inbox of every connected
    client.  A client that is not a key is not connected. *)
Abbreviation Server := (gmap PeerId (list Delivery)).

Definition connected (srv : Server) (peer : PeerId) : bool :=
  bool_decide (is_Some (srv !! peer)).

(** Modelled from the spec: a client connects and is registered under the id
    the server assigns (an id not in use). *)
Definition register (srv : Server) (peer : PeerId) : option Server :=
  if connected srv peer then None else Some (<[peer := []]> srv).

Definition disconnect (srv : Server) (peer : PeerId) : Server :=
  delete peer srv.

(** Modelled from the spec: relaying one message of [sender].  A directed
    message goes to the inbox of its recipient, or nowhere when the recipient
    is not connected; a broadcast goes to every other client. *)
Definition relay (srv : Server) (sender : PeerId) (msg : ClientMessage) : Server :=
  let d := mkDelivery sender msg in
  match msg with
  | Directed to _ _ =>
      match srv !! to with
      | Some inbox => <[to := inbox ++ [d]]> srv
      | None => srv
      end
  | Broadcast _ _ =>
      map_imap (fun peer inbox =>
                  Some (if bool_decide (peer = sender) then inbox
                        else inbox ++ [d])) srv
  end.

(** Modelled from the spec: [send]; it fails with "not connected" after the
    sender has disconnected. *)
Definition send (srv : Server) (sender : PeerId) (msg : ClientMessage)
  : option Server :=
  if connected srv sender then Some (relay srv sender msg) else None.

(** Two clients, registered and with empty inboxes. *)
Definition two_clients : Server := <["peerB" := []]> (<["peerA" := []]> ∅).

End Rendezvous.

(** ** Download coordinator *)

Module Coordinator.
Import Scores Reputation.

(** Modelled from the spec: the four states of a chunk;
    [multiSourceDownloadService.ts] is not among the sources. *)
Inductive ChunkState :=
| Pending
| InFlight (peer : PeerId) (startedAt : Z)
| Completed (hash : string)
| Failed (reason : string).

Record DownloadTask := mkTask {
  fileId : string;
  totalChunks : nat;
  chunkSize : Z;
  chunkStatus : gmap nat ChunkState
}.

(** The task together with the process-wide reputation store. *)
Record State (num : Type) := mkState {
  task : DownloadTask;
  reputation : gmap PeerId (ReputationEntry num)
}.
Arguments mkState {num} _ _.
Arguments task {num} _.
Arguments reputation {num} _.

Definition set_status (t : DownloadTask) (i : nat) (s : ChunkState) : DownloadTask :=
  mkTask (fileId t) (totalChunks t) (chunkSize t) (<[i := s]> (chunkStatus t)).

Definition chunk_indices (t : DownloadTask) : list nat := seq 0 (totalChunks t).

(** Modelled from the spec: [startDownload]; fixed-size chunks, the last one
    possibly shorter, all of them [Pending]. *)
Definition startDownload (fileId : string) (totalSize chunkSize : Z) : DownloadTask :=
  let n := Z.to_nat ((totalSize + chunkSize - 1) / chunkSize) in
  mkTask fileId n chunkSize
         (list_to_map (List.map (fun i => (i, Pending)) (seq 0 n))).

Section Passes.

Context {num : Type} `{ScoreNumber num}.

Variables success_step failure_step timeout_share : num.

(** The per-peer concurrency limit and the deadline of a chunk. *)
Variable limit : nat.
Variable deadline : nat -> Z.

(** The candidate list of section 4.4, derived anew from the reputation
    store whenever it is pulled; best-ranked first. *)
Variable selectCandidates : gmap PeerId (ReputationEntry num) -> list PeerId.

(** The number of chunks in flight to a peer. *)
Definition inflight_count (t : DownloadTask) (p : PeerId) : nat :=
  length (List.filter
            (fun i => match chunkStatus t !! i with
                      | Some (InFlight q _) => String.eqb q p
                      | _ => false
                      end) (chunk_indices t)).

Definition eligible (t : DownloadTask) (p : PeerId) : bool :=
  Nat.ltb (inflight_count t p) limit.

(** The assignee of a chunk that is in flight past its deadline. *)
Definition expired (now : Z) (t : DownloadTask) (i : nat) : option PeerId :=
  match chunkStatus t !! i with
  | Some (InFlight p startedAt) =>
      if (startedAt + deadline i <? now)%Z then Some p else None
  | _ => None
  end.

(** Modelled from the spec: timeout handling of one chunk.  Past its
    deadline an in-flight chunk goes back to [Pending] and its assignee gets a
    [Timeout] recorded. *)
Definition timeoutChunk (now : Z) (st : State num) (i : nat) : State num :=
  match expired now (task st) i with
  | Some p =>
      mkState (set_status (task st) i Pending)
              (record success_step failure_step timeout_share
                      (reputation st) p Timeout)
  | None => st
  end.

Definition timeoutPass (now : Z) (st : State num) : State num :=
  fold_left (timeoutChunk now) (chunk_indices (task st)) st.

(** Modelled from the spec: integrity failure of a chunk delivered by its
    assignee with a wrong hash: the peer gets a [Failure] recorded and the
    chunk returns to [Pending]. *)
Definition integrityFailure (st : State num) (i : nat) : State num :=
  match chunkStatus (task st) !! i with
  | Some (InFlight p _) =>
      mkState (set_status (task st) i Pending)
              (record success_step failure_step timeout_share
                      (reputation st) p Failure)
  | _ => st
  end.

(** Modelled from the spec: one turn of the assignment loop.  A [Pending]
    chunk goes to the highest-ranked candidate below the concurrency limit,
    and stays [Pending] when there is none. *)
Definition assignChunk (now : Z) (st : State num) (i : nat) : State num :=
  match chunkStatus (task st) !! i with
  | Some Pending =>
      match List.find (eligible (task st)) (selectCandidates (reputation st)) with
      | Some p => mkState (set_status (task st) i (InFlight p now)) (reputation st)
      | None => st
      end
  | _ => st
  end.

Definition assignPass (now : Z) (st : State num) : State num :=
  fold_left (assignChunk now) (chunk_indices (task st)) st.

(** The state in which the pass comes to chunk [i]: the chunks before it
    have had their turn. *)
Definition assignPass_before (now : Z) (st : State num) (i : nat) : State num :=
  fold_left (assignChunk now) (seq 0 i) st.

End Passes.

(** A download of ten bytes in chunks of four, its second chunk in flight
    to peer A since time 0; and a ranking that puts peer B first. *)
Definition sample_state {num : Type} : State num :=
  mkState (set_status (startDownload "file" 10 4) 1 (InFlight "peerA" 0)) ∅.

Definition sample_ranking {num : Type} (_ : gmap PeerId (ReputationEntry num))
  : list PeerId :=
  ["peerB"; "peerA"].

(** The same download with its first chunk in flight to peer B since time
    1500. *)
Definition busy_state {num : Type} : State num :=
  mkState (set_status (task (sample_state (num := num))) 0 (InFlight "peerB" 1500)) ∅.

(** The same download again, peer A having failed 540 times before, with
    binary64 scores, a failure step of 0.75 and a timeout share of 0.5. *)
Definition worn_state : State PrimFloat.float :=
  mkState (task (sample_state (num := PrimFloat.float)))
          (record_n 0.5%float 0.75%float 0.5%float 540 "peerA" Failure ∅).

End Coordinator.

(** ** The timezone rules as a table *)

Module Rules.
Import Str Geo.

(** Whether a string holds the character [/]. *)
Fixpoint has_slash (s : string) : bool :=
  match s with
  | EmptyString => false
  | String c s' => Ascii.eqb c "/" || has_slash s'
  end.

(** A pattern one of whose groups has [/] in every alternative. *)
Definition needs_slash (p : pattern) : bool :=
  existsb (fun alts => forallb has_slash alts) p.

(** The pattern and the [regionId] of every entry of [matchers], in order. *)
Definition rule_table : list (pattern * string) :=
  [ (usWest_pattern, "usWest");
    (southAmerica_pattern, "southAmerica");
    (america_pattern, "usEast");
    (euCentral_pattern, "euCentral");
    (euWest_pattern, "euWest");
    (europe_pattern, "euCentral");
    (asiaEast_pattern, "asiaEast");
    (asiaPacific_pattern, "asiaPacific");
    (indian_pattern, "asiaPacific");
    (asia_pattern, "asiaPacific");
    (oceania_pattern, "oceania");
    (oceania_any_pattern, "oceania");
    (africa_pattern, "africa");
    (africa_any_pattern, "africa");
    (azores_pattern, "euWest");
    (bermuda_pattern, "usEast");
    (atlantic_pattern, "euWest") ].

Definition rule_of (entry : pattern * string) : Matcher :=
  mkMatcher (fun value => regex_test (fst entry) value) (snd entry).

(** The region ids the rules name. *)
Definition rule_ids : list string :=
  [ "usWest"; "southAmerica"; "usEast"; "euCentral"; "euWest"; "asiaEast";
    "asiaPacific"; "oceania"; "africa" ].

(** The rules after the generic Americas catch-all. *)
Definition rules_after_america : list Matcher := skipn 3 matchers.

(** The entries of [matchers] around the three city lists that a catch-all
    of the same region follows. *)
Definition asiaPacific_cities_matcher : Matcher :=
  mkMatcher (fun value => regex_test asiaPacific_pattern value) "asiaPacific".
Definition indian_matcher : Matcher :=
  mkMatcher (fun value => regex_test indian_pattern value) "asiaPacific".
Definition oceania_cities_matcher : Matcher :=
  mkMatcher (fun value => regex_test oceania_pattern value) "oceania".
Definition oceania_matcher : Matcher :=
  mkMatcher (fun value => regex_test oceania_any_pattern value) "oceania".
Definition africa_cities_matcher : Matcher :=
  mkMatcher (fun value => regex_test africa_pattern value) "africa".
Definition africa_matcher : Matcher :=
  mkMatcher (fun value => regex_test africa_any_pattern value) "africa".

Definition rules_to_asiaEast : list Matcher := firstn 7 matchers.
Definition atlantic_rules : list Matcher := skipn 14 matchers.

(** [matchers] without the city lists of the Asia-Pacific, Oceania and
    Africa rules. *)
Definition matchers_without_city_lists : list Matcher :=
  rules_to_asiaEast
  ++ indian_matcher :: asia_matcher :: oceania_matcher :: africa_matcher
  :: atlantic_rules.

(** Catalogues with exact coordinates: one that holds the sentinel only, and
    one whose [usEast] region is not its first. *)
Definition sentinel_catalogue : list (GeoRegionConfig Exact.xnum) :=
  [ mkRegion "unknown" (Exact.Finite 0) (Exact.Finite 0) ].

Definition atlantic_catalogue : list (GeoRegionConfig Exact.xnum) :=
  [ mkRegion "euWest" (Exact.Finite 53) (Exact.Finite (-6));
    mkRegion "usEast" (Exact.Finite 39) (Exact.Finite (-77));
    mkRegion "unknown" (Exact.Finite 0) (Exact.Finite 0) ].

(** A catalogue whose first region has no coordinates. *)
Definition patchy_catalogue : list (GeoRegionConfig Exact.xnum) :=
  [ mkRegion "euWest" Exact.NaN Exact.NaN;
    mkRegion "usEast" (Exact.Finite 39) (Exact.Finite (-77));
    mkRegion "unknown" (Exact.Finite 0) (Exact.Finite 0) ].

(** The regions whose distance from the coordinate is below [+Infinity]. *)
Definition with_distance {num : Type} `{JsNumber num} (lat0 lng0 : num)
    (regions : list (GeoRegionConfig num)) : list (GeoRegionConfig num) :=
  List.filter (fun r => num_lt (distance_to lat0 lng0 r) Number_POSITIVE_INFINITY)
              regions.

End Rules.

(** * Properties *)

(** ** Timezone lookup *)

Module TimezoneFacts.
Import Str Geo.

Lemma matchers_southAmerica_split :
  matchers = usWest_matcher :: southAmerica_matcher :: rules_after_southAmerica.
Proof. reflexivity. Qed.

Lemma matchers_asiaEast_split :
  matchers = rules_before_asiaEast ++ asiaEast_matcher :: rules_after_asiaEast.
Proof. reflexivity. Qed.

(** Every city of the East-Asia rule passes the check. *)
Lemma asiaEast_city_rules city :
  In city asiaEast_cities ->
  forallb (fun m' => negb (test m' (String.append "asia/" city)))
          rules_before_asiaEast = true /\
  test asiaEast_matcher (String.append "asia/" city) = true /\
  test asia_matcher (String.append "asia/" city) = true.
Proof.
  intros Hin.
  assert (Hall : forallb asiaEast_city_check asiaEast_cities = true)
    by (vm_compute; reflexivity).
  rewrite forallb_forall in Hall. specialize (Hall city Hin).
  unfold asiaEast_city_check in Hall.
  apply andb_true_iff in Hall as [Hall H3].
  apply andb_true_iff in Hall as [H1 H2]. auto.
Qed.

Section Lookup.

Context {num : Type}.
Variable GEO_REGIONS : list (GeoRegionConfig num).
Variable UNKNOWN_REGION_ID : string.

Local Abbreviation candidates := (REGION_CANDIDATES GEO_REGIONS UNKNOWN_REGION_ID).
Local Abbreviation lookup_region := (find_region GEO_REGIONS UNKNOWN_REGION_ID).
Local Abbreviation loop := (matcher_loop GEO_REGIONS UNKNOWN_REGION_ID).
Local Abbreviation infer := (inferRegionFromTimezone GEO_REGIONS UNKNOWN_REGION_ID).

Lemma candidate_not_sentinel r :
  In r candidates -> In r GEO_REGIONS /\ id r <> UNKNOWN_REGION_ID.
Proof.
  unfold REGION_CANDIDATES. rewrite filter_In. intros [Hin Hid]. split; [exact Hin|].
  apply negb_true_iff in Hid. now apply String.eqb_neq.
Qed.

Lemma find_region_some rid r :
  lookup_region rid = Some r -> In r candidates /\ id r = rid.
Proof.
  unfold find_region. intros Hf. apply find_some in Hf as [Hin Heq].
  split; [exact Hin|]. now apply String.eqb_eq.
Qed.

Lemma loop_hit m rest tz r :
  test m tz = true -> lookup_region (regionId m) = Some r ->
  loop (m :: rest) tz = Some r.
Proof. intros Ht Hr. cbn [matcher_loop]. now rewrite Ht, Hr. Qed.

Lemma loop_skip_test m rest tz :
  test m tz = false -> loop (m :: rest) tz = loop rest tz.
Proof. intros Ht. cbn [matcher_loop]. now rewrite Ht. Qed.

Lemma loop_skip_region m rest tz :
  lookup_region (regionId m) = None -> loop (m :: rest) tz = loop rest tz.
Proof.
  intros Hr. cbn [matcher_loop]. rewrite Hr. now destruct (test m tz).
Qed.

(** The result of the loop is a candidate whose id is the id of one of the
    rules that match. *)
Lemma loop_some ms tz r :
  loop ms tz = Some r ->
  exists m, In m ms /\ test m tz = true /\ lookup_region (regionId m) = Some r.
Proof.
  induction ms as [|m ms IH]; cbn [matcher_loop]; [discriminate|].
  destruct (test m tz) eqn:Ht.
  - destruct (lookup_region (regionId m)) as [r'|] eqn:Hr.
    + intros [= <-]. exists m. repeat split; auto. now left.
    + intros H. destruct (IH H) as (m' & Hin & H1 & H2).
      exists m'. repeat split; auto. now right.
  - intros H. destruct (IH H) as (m' & Hin & H1 & H2).
    exists m'. repeat split; auto. now right.
Qed.

(** The loop is a search for the first rule that matches and names a
    candidate. *)
Lemma loop_find ms tz :
  loop ms tz =
  match List.find (fun m => test m tz &&
                            bool_decide (is_Some (lookup_region (regionId m)))) ms with
  | Some m => lookup_region (regionId m)
  | None => None
  end.
Proof.
  induction ms as [|m ms IH]; [reflexivity|].
  cbn [matcher_loop List.find]. destruct (test m tz); cbn [andb]; [|exact IH].
  destruct (lookup_region (regionId m)) as [r|] eqn:Hr.
  - rewrite bool_decide_eq_true_2 by eauto. now rewrite Hr.
  - rewrite bool_decide_eq_false_2; [exact IH|]. intros [x Hx]. discriminate.
Qed.

(** With no earlier rule matching, the first matching rule decides as soon as
    its region is in the catalogue. *)
Lemma loop_first_match pre m post tz r :
  forallb (fun m' => negb (test m' tz)) pre = true ->
  test m tz = true -> lookup_region (regionId m) = Some r ->
  loop (pre ++ m :: post) tz = Some r.
Proof.
  induction pre as [|m' pre IH]; cbn [forallb app]; intros Hpre Ht Hr.
  - now apply loop_hit.
  - apply andb_true_iff in Hpre as [Hm' Hpre]. apply negb_true_iff in Hm'.
    rewrite loop_skip_test by exact Hm'. now apply IH.
Qed.

Lemma find_test_split tz ms m :
  List.find (fun m => test m tz) ms = Some m ->
  exists pre post, ms = pre ++ m :: post /\
                   forallb (fun m' => negb (test m' tz)) pre = true /\
                   test m tz = true.
Proof.
  induction ms as [|m0 ms IH]; cbn [List.find]; [discriminate|].
  destruct (test m0 tz) eqn:Ht.
  - intros [= <-]. exists [], ms. now repeat split.
  - intros H. destruct (IH H) as (pre & post & -> & Hpre & Hm).
    exists (m0 :: pre), post. repeat split; auto.
    cbn [forallb]. now rewrite Ht, Hpre.
Qed.

Lemma loop_no_match ms tz :
  List.find (fun m => test m tz) ms = None -> loop ms tz = None.
Proof.
  induction ms as [|m ms IH]; cbn [List.find]; [reflexivity|].
  destruct (test m tz) eqn:Ht; [discriminate|].
  intros H. rewrite loop_skip_test by exact Ht. now apply IH.
Qed.

(** C1, as amended: the timezone lookup returns the region of the first rule
    whose pattern matches the lowercased identifier, provided that rule names
    a non-sentinel catalogue region; when no rule matches it returns none. *)
Theorem infer_first_rule (timezone : string) :
  (forall m, List.find (fun m => test m (toLowerCase timezone)) matchers = Some m ->
             is_Some (lookup_region (regionId m))) ->
  infer timezone = first_rule_region GEO_REGIONS UNKNOWN_REGION_ID timezone.
Proof.
  intros Hcat. unfold inferRegionFromTimezone, first_rule_region.
  destruct (List.find _ matchers) as [m|] eqn:Hfind.
  - destruct (Hcat m eq_refl) as [r Hr]. rewrite Hr.
    destruct (find_test_split _ _ _ Hfind) as (pre & post & -> & Hpre & Hm).
    now apply loop_first_match.
  - now apply loop_no_match.
Qed.

(** C10: a rule whose pattern matches but whose [regionId] names no
    non-sentinel catalogue region is passed over and the later rules are
    tried; so the lookup returns the region of the first matching rule whose
    [regionId] is in the catalogue, and none when there is no such rule. *)
Theorem infer_falls_through (timezone : string) :
  (forall m rest, test m (toLowerCase timezone) = true ->
                  lookup_region (regionId m) = None ->
                  loop (m :: rest) (toLowerCase timezone) =
                  loop rest (toLowerCase timezone)) /\
  infer timezone =
  match List.find (fun m => test m (toLowerCase timezone) &&
                            bool_decide (is_Some (lookup_region (regionId m))))
                  matchers with
  | Some m => lookup_region (regionId m)
  | None => None
  end.
Proof.
  split.
  - intros m rest _ Hr. now apply loop_skip_region.
  - apply loop_find.
Qed.

(** C2, as amended: when the catalogue has a (non-sentinel) [southAmerica]
    region, an identifier that the South-America rule matches never resolves
    to the generic Americas region [usEast]: it resolves to the South-America
    region (or to [usWest], for an identifier the first rule matches as
    well).  When the catalogue has an [asiaEast] region, "Asia/<city>" for a
    city of the East-Asia rule resolves to it, although the later Asia
    catch-all matches the identifier too. *)
Theorem timezone_rule_order (timezone : string) :
  (forall sa,
      regex_test southAmerica_pattern (toLowerCase timezone) = true ->
      lookup_region "southAmerica" = Some sa ->
      exists r, infer timezone = Some r /\
                (r = sa \/ id r = "usWest") /\ id r <> "usEast") /\
  (forall city ea,
      In city asiaEast_cities ->
      toLowerCase timezone = String.append "asia/" city ->
      lookup_region "asiaEast" = Some ea ->
      infer timezone = Some ea /\
      test asia_matcher (toLowerCase timezone) = true).
Proof.
  split.
  - intros sa Hsa Hcat. unfold inferRegionFromTimezone.
    rewrite matchers_southAmerica_split.
    assert (Hsouth : forall rest,
               loop (southAmerica_matcher :: rest) (toLowerCase timezone) = Some sa)
      by (intros rest; now apply loop_hit).
    assert (Hnot : id sa <> "usEast")
      by (apply find_region_some in Hcat as [_ ->]; discriminate).
    destruct (test usWest_matcher (toLowerCase timezone)) eqn:Hw.
    + destruct (lookup_region (regionId usWest_matcher)) as [w|] eqn:Hr.
      * exists w. rewrite (loop_hit _ _ _ _ Hw Hr).
        apply find_region_some in Hr as [_ Hr]. cbn [regionId usWest_matcher] in Hr.
        repeat split; auto. rewrite Hr. discriminate.
      * exists sa. rewrite loop_skip_region by exact Hr. auto.
    + exists sa. rewrite loop_skip_test by exact Hw. auto.
  - intros city ea Hcity Hlow Hcat. unfold inferRegionFromTimezone.
    rewrite Hlow.
    destruct (asiaEast_city_rules city Hcity) as (Hpre & Hhit & Hlater).
    split; [|exact Hlater].
    rewrite matchers_asiaEast_split.
    now apply loop_first_match.
Qed.

End Lookup.

(** C2, the claim as worded fails: in a catalogue without a [southAmerica]
    region an identifier of the South-America rule resolves to the generic
    Americas region. *)
Lemma timezone_rule_order_counterexample :
  regex_test southAmerica_pattern (toLowerCase "America/Sao_Paulo") = true /\
  inferRegionFromTimezone small_catalogue "unknown" "America/Sao_Paulo"
    = Some (mkRegion "usEast" 39 (-77))%Z.
Proof. split; reflexivity. Qed.

(** The rule order at the full catalogue. *)
Lemma timezone_rule_order_witness :
  (exists r, inferRegionFromTimezone full_catalogue "unknown" "America/Sao_Paulo"
             = Some r /\
             (r = mkRegion "southAmerica" (-23) (-47) \/ id r = "usWest")%Z /\
             id r <> "usEast") /\
  (inferRegionFromTimezone full_catalogue "unknown" "ASIA/Hong_Kong"
     = Some (mkRegion "asiaEast" 36 140)%Z /\
   test asia_matcher (toLowerCase "ASIA/Hong_Kong") = true).
Proof.
  split.
  - apply (proj1 (timezone_rule_order full_catalogue "unknown" "America/Sao_Paulo"));
      reflexivity.
  - apply (proj2 (timezone_rule_order full_catalogue "unknown" "ASIA/Hong_Kong")
             "hong_kong").
    + cbn. tauto.
    + reflexivity.
    + reflexivity.
Defined.

(** The lookup on some identifiers, at the full catalogue. *)
Example lookup_samples :
  List.map (fun tz => option_map id (inferRegionFromTimezone full_catalogue "unknown" tz))
           [ "America/New_York"; "America/Argentina/Buenos_Aires";
             "America/Dawson_Creek"; "Europe/London"; "Europe/Istanbul";
             "Asia/Tokyo"; "Asia/Almaty"; "Indian/Maldives"; "Pacific/Honolulu";
             "Atlantic/Bermuda"; "Atlantic/Reykjavik"; "UTC"; "" ]
  = [ Some "usEast"; Some "southAmerica"; Some "usWest"; Some "euWest";
      Some "euCentral"; Some "asiaEast"; Some "asiaPacific"; Some "asiaPacific";
      Some "oceania"; Some "usEast"; Some "euWest"; None; None ].
Proof. vm_compute. reflexivity. Qed.

(** C1, the claim as worded fails: in a catalogue without an [asiaEast]
    region the first rule matching "Asia/Tokyo" is the East-Asia rule, whose
    region does not exist, and the lookup goes on to the Asia catch-all. *)
Lemma infer_first_rule_counterexample :
  inferRegionFromTimezone small_catalogue "unknown" "Asia/Tokyo"
    = Some (mkRegion "asiaPacific" 1 104)%Z /\
  first_rule_region small_catalogue "unknown" "Asia/Tokyo" = None /\
  inferRegionFromTimezone small_catalogue "unknown" "Asia/Tokyo"
    <> first_rule_region small_catalogue "unknown" "Asia/Tokyo".
Proof. vm_compute. repeat split; discriminate. Qed.

(** The first rule decides at a catalogue with a region for every rule. *)
Lemma infer_first_rule_witness :
  inferRegionFromTimezone full_catalogue "unknown" "Asia/Tokyo"
  = first_rule_region full_catalogue "unknown" "Asia/Tokyo".
Proof.
  apply (infer_first_rule full_catalogue "unknown" "Asia/Tokyo").
  intros m Hm. vm_compute in Hm. injection Hm as <-. vm_compute. eauto.
Defined.

(** The East-Asia rule is passed over at the small catalogue. *)
Lemma infer_falls_through_witness :
  matcher_loop small_catalogue "unknown" (asiaEast_matcher :: [asia_matcher])
               (toLowerCase "Asia/Tokyo")
  = matcher_loop small_catalogue "unknown" [asia_matcher] (toLowerCase "Asia/Tokyo").
Proof.
  apply (proj1 (infer_falls_through small_catalogue "unknown" "Asia/Tokyo"));
    reflexivity.
Defined.

End TimezoneFacts.

(** ** The distance of two regions *)

Module DistanceFacts.
Import Geo.

Section Distance.

Context {num : Type} `{JsNumber num} `{JsCompare num}.

(** The sine of half an angle given in degrees, as [haversineDistance]
    takes it of the two differences. *)
Local Abbreviation half_sine d :=
  (Math_sin (num_div (toRadians d) (num_lit 2))).

Section Zero.

Hypothesis Hzero : zero_laws (num := num).

Lemma toRadians_zero : toRadians (num_lit 0) = num_lit 0.
Proof.
  unfold toRadians. rewrite (law_zero_times_pi Hzero).
  apply (law_zero_over Hzero). lia.
Qed.

Lemma half_sine_zero : half_sine (num_lit 0) = num_lit 0.
Proof.
  rewrite toRadians_zero, (law_zero_over Hzero) by lia.
  apply (law_sin_zero Hzero).
Qed.

(** From a finite point to itself every step of the formula is a
    computation with [+0]. *)
Lemma haversine_self lat0 lng0 :
  finite_point lat0 lng0 -> haversineDistance lat0 lng0 lat0 lng0 = num_lit 0.
Proof.
  intros (Hlat & Hlng & Hcos). unfold haversineDistance. cbv zeta.
  rewrite Hlat, Hlng, half_sine_zero.
  rewrite (law_square_times_zero Hzero _ Hcos).
  rewrite (law_zero_times_zero Hzero), (law_zero_plus_zero Hzero).
  rewrite (law_one_minus_zero Hzero), (law_sqrt_zero Hzero), (law_sqrt_one Hzero).
  rewrite (law_atan2_zero_one Hzero).
  rewrite !(law_times_zero Hzero) by lia. reflexivity.
Qed.

End Zero.

Section Sign.

Hypothesis Hsign : sign_laws (num := num).

Lemma mul_neg_r x y : num_mul x (num_neg y) = num_neg (num_mul x y).
Proof.
  rewrite (law_mul_comm Hsign x (num_neg y)), (law_mul_neg Hsign).
  now rewrite (law_mul_comm Hsign y x).
Qed.

Lemma half_sine_neg d : half_sine (num_neg d) = num_neg (half_sine d).
Proof.
  unfold toRadians.
  now rewrite (law_mul_neg Hsign), !(law_div_neg Hsign), (law_sin_neg Hsign).
Qed.

Lemma half_sine_flip x y :
  half_sine (num_sub x y) = half_sine (num_sub y x) \/
  half_sine (num_sub x y) = num_neg (half_sine (num_sub y x)).
Proof.
  destruct (law_sub_flip Hsign x y) as [-> | ->];
    [now left | right; apply half_sine_neg].
Qed.

(** The sign of the sine is lost in the two products of the formula. *)
Lemma square_flip u v :
  u = v \/ u = num_neg v ->
  num_mul u u = num_mul v v /\
  forall c, num_mul (num_mul c u) u = num_mul (num_mul c v) v.
Proof.
  intros [-> | ->]; split; try reflexivity.
  - apply (law_mul_neg_neg Hsign).
  - intros c. now rewrite (mul_neg_r c v), (law_mul_neg_neg Hsign).
Qed.

Lemma haversine_sym lat1 lng1 lat2 lng2 :
  haversineDistance lat1 lng1 lat2 lng2 = haversineDistance lat2 lng2 lat1 lng1.
Proof.
  unfold haversineDistance. cbv zeta.
  destruct (square_flip _ _ (half_sine_flip lat2 lat1)) as [Elat _].
  destruct (square_flip _ _ (half_sine_flip lng2 lng1)) as [_ Elng].
  rewrite Elat, Elng.
  now rewrite (law_mul_comm Hsign (Math_cos (toRadians lat1))).
Qed.

End Sign.

(** The distance is never below zero: it is [0], above [0], or [NaN]. *)
Lemma haversine_not_below_zero lat1 lng1 lat2 lng2 :
  distance_laws (num := num) ->
  not_below_zero (haversineDistance lat1 lng1 lat2 lng2).
Proof.
  intros Hdist. unfold haversineDistance. cbv zeta.
  apply (law_times_literal Hdist); [lia|].
  apply (law_times_literal Hdist); [lia|].
  apply (law_angle Hdist).
Qed.


End Distance.

End DistanceFacts.

(** ** Coordinate lookup and region detection *)

Module NearestFacts.
Import Str Geo DistanceFacts.

Section Nearest.

Context {num : Type} `{JsNumber num}.
Variable GEO_REGIONS : list (GeoRegionConfig num).
Variable UNKNOWN_REGION_ID : string.

Local Abbreviation candidates := (REGION_CANDIDATES GEO_REGIONS UNKNOWN_REGION_ID).
Local Abbreviation fallback_region := (FALLBACK_REGION GEO_REGIONS UNKNOWN_REGION_ID).
Local Abbreviation nearest := (nearestRegion GEO_REGIONS UNKNOWN_REGION_ID).

Lemma nearest_step_far lat0 lng0 closest minDistance region :
  num_lt (distance_to lat0 lng0 region) minDistance = false ->
  nearest_step lat0 lng0 (closest, minDistance) region = (closest, minDistance).
Proof. unfold nearest_step, distance_to. cbn [snd]. now intros ->. Qed.

Lemma nearest_step_near lat0 lng0 closest minDistance region :
  num_lt (distance_to lat0 lng0 region) minDistance = true ->
  nearest_step lat0 lng0 (closest, minDistance) region
  = (Some region, distance_to lat0 lng0 region).
Proof. unfold nearest_step, distance_to. cbn [snd]. now intros ->. Qed.

Lemma nearest_loop_cons lat0 lng0 x regions st :
  nearest_loop lat0 lng0 (x :: regions) st
  = nearest_loop lat0 lng0 regions (nearest_step lat0 lng0 st x).
Proof. reflexivity. Qed.

(** Whatever the numbers do, the loop ends on its initial region or on one
    of the regions it went through. *)
Lemma nearest_loop_closest lat0 lng0 regions st :
  fst (nearest_loop lat0 lng0 regions st) = fst st \/
  exists r, In r regions /\ fst (nearest_loop lat0 lng0 regions st) = Some r.
Proof.
  revert st. induction regions as [|x regions IH]; intros st; [now left|].
  rewrite nearest_loop_cons.
  destruct (IH (nearest_step lat0 lng0 st x)) as [Heq | (r & Hin & Hr)].
  - rewrite Heq. unfold nearest_step.
    destruct (num_lt _ (snd st)); [right | now left].
    exists x. split; [now left | reflexivity].
  - right. exists r. split; [now right | exact Hr].
Qed.

(** Regions that are not strictly nearer than the current minimum leave the
    state as it is. *)
Lemma nearest_loop_stay lat0 lng0 regions closest minDistance :
  (forall r, In r regions -> num_lt (distance_to lat0 lng0 r) minDistance = false) ->
  nearest_loop lat0 lng0 regions (closest, minDistance) = (closest, minDistance).
Proof.
  induction regions as [|x regions IH]; intros Hfar; [reflexivity|].
  rewrite nearest_loop_cons.
  rewrite nearest_step_far by (apply Hfar; now left).
  apply IH. intros r Hr. apply Hfar. now right.
Qed.

Lemma fallback_region_candidate :
  candidates <> [] -> exists r, fallback_region = Some r /\ In r candidates.
Proof.
  intros Hne. unfold FALLBACK_REGION.
  destruct (List.find _ candidates) as [r|] eqn:Hfind.
  - exists r. split; [reflexivity|]. now apply find_some in Hfind.
  - destruct candidates as [|c cs] eqn:Hc; [contradiction|].
    exists c. split; [reflexivity | now left].
Qed.

Lemma nearest_candidate lat0 lng0 :
  candidates <> [] -> exists r, nearest lat0 lng0 = Some r /\ In r candidates.
Proof.
  intros Hne. unfold nearestRegion.
  destruct (nearest_loop_closest lat0 lng0 candidates
              (fallback_region, Number_POSITIVE_INFINITY)) as [Heq | (r & Hin & Hr)].
  - rewrite Heq. cbn [fst]. now apply fallback_region_candidate.
  - exists r. now split.
Qed.

(** The minimum the loop ends on is the initial one or the distance of one
    of the regions it went through. *)
Lemma nearest_loop_min lat0 lng0 regions st :
  snd (nearest_loop lat0 lng0 regions st) = snd st \/
  exists r, In r regions /\
            snd (nearest_loop lat0 lng0 regions st) = distance_to lat0 lng0 r.
Proof.
  revert st. induction regions as [|x regions IH]; intros st; [now left|].
  rewrite nearest_loop_cons.
  destruct (IH (nearest_step lat0 lng0 st x)) as [Heq | (r & Hin & Hr)].
  - rewrite Heq. unfold nearest_step.
    destruct (num_lt _ (snd st)); [right | now left].
    exists x. split; [now left | reflexivity].
  - right. exists r. split; [now right | exact Hr].
Qed.

Lemma nearest_loop_app lat0 lng0 xs ys st :
  nearest_loop lat0 lng0 (xs ++ ys) st
  = nearest_loop lat0 lng0 ys (nearest_loop lat0 lng0 xs st).
Proof. unfold nearest_loop. apply fold_left_app. Qed.

(** Started at [+Infinity], the loop over [pre ++ r :: post] ends on [r] when
    [r] is strictly nearer than every region of [pre], nothing in [post] is
    strictly nearer than [r], and the distance of [r] is a number. *)
Lemma nearest_loop_strict_first lat0 lng0 pre r post closest0 :
  is_number (distance_to lat0 lng0 r) ->
  (forall r', In r' pre ->
              num_lt (distance_to lat0 lng0 r) (distance_to lat0 lng0 r') = true) ->
  (forall r', In r' post ->
              num_lt (distance_to lat0 lng0 r') (distance_to lat0 lng0 r) = false) ->
  nearest_loop lat0 lng0 (pre ++ r :: post) (closest0, Number_POSITIVE_INFINITY)
  = (Some r, distance_to lat0 lng0 r).
Proof.
  intros Hself Hpre Hpost.
  rewrite nearest_loop_app, nearest_loop_cons.
  destruct (nearest_loop lat0 lng0 pre (closest0, Number_POSITIVE_INFINITY))
    as [closest minDistance] eqn:Hloop.
  assert (Hnear : num_lt (distance_to lat0 lng0 r) minDistance = true).
  { destruct (nearest_loop_min lat0 lng0 pre (closest0, Number_POSITIVE_INFINITY))
      as [Hm | (r' & Hin & Hm)];
      rewrite Hloop in Hm; cbn [snd] in Hm; subst minDistance.
    - exact Hself.
    - now apply Hpre. }
  rewrite nearest_step_near by exact Hnear.
  now apply nearest_loop_stay.
Qed.

(** C5, as amended: at the reference coordinate of a non-sentinel catalogue
    region R with finite coordinates the coordinate lookup returns R itself,
    provided every candidate earlier in the catalogue is at a distance above
    0 from that coordinate.  The distance of R to itself is 0 and no distance
    is below 0, by the laws of [+0] and of the last steps of the formula,
    which hold of doubles; so no later candidate takes R's place. *)
Theorem nearest_of_reference_point (R : GeoRegionConfig num)
    (pre post : list (GeoRegionConfig num)) :
  zero_laws (num := num) -> distance_laws (num := num) ->
  candidates = pre ++ R :: post ->
  finite_point (lat R) (lng R) ->
  (forall r', In r' pre ->
              num_lt (num_lit 0) (distance_to (lat R) (lng R) r') = true) ->
  nearest (lat R) (lng R) = Some R /\
  In R GEO_REGIONS /\ id R <> UNKNOWN_REGION_ID /\
  distance_to (lat R) (lng R) R = num_lit 0.
Proof.
  intros Hzero Hdist Hsplit Hfinite Hpre.
  assert (Hself : distance_to (lat R) (lng R) R = num_lit 0)
    by (unfold distance_to; now apply haversine_self).
  split; [|split; [| split; [| exact Hself]]].
  - unfold nearestRegion. rewrite Hsplit.
    rewrite (nearest_loop_strict_first _ _ pre R post); [reflexivity | | |].
    + rewrite Hself. apply (law_zero_number Hzero).
    + intros r' Hr'. rewrite Hself. now apply Hpre.
    + intros r' _. rewrite Hself. unfold distance_to.
      now apply haversine_not_below_zero.
  - apply (TimezoneFacts.candidate_not_sentinel GEO_REGIONS UNKNOWN_REGION_ID).
    rewrite Hsplit. apply in_or_app. right. now left.
  - apply (TimezoneFacts.candidate_not_sentinel GEO_REGIONS UNKNOWN_REGION_ID R).
    rewrite Hsplit. apply in_or_app. right. now left.
Qed.

(** C9: with at least one non-sentinel region in the catalogue, region
    detection always answers with a catalogue region that is not the
    sentinel; and without a browser position and with a timezone that no rule
    matches (or no timezone at all) the answer is the fallback region, tagged
    [fallback]: the candidate with id [usEast], or the first candidate when
    there is no [usEast]. *)
Theorem detectUserRegion_total (env : Environment) :
  candidates <> [] ->
  (exists r, region (detectUserRegion GEO_REGIONS UNKNOWN_REGION_ID env) = Some r /\
             In r GEO_REGIONS /\ id r <> UNKNOWN_REGION_ID) /\
  (coords env = None ->
   (forall tz, timeZone env = Some tz ->
               List.find (fun m => test m (toLowerCase tz)) matchers = None) ->
   exists fb,
     detectUserRegion GEO_REGIONS UNKNOWN_REGION_ID env = mkResult (Some fb) fallback /\
     (List.find (fun region => String.eqb (id region) "usEast") candidates = Some fb \/
      (List.find (fun region => String.eqb (id region) "usEast") candidates = None /\
       List.head candidates = Some fb))).
Proof.
  intros Hne. split.
  - assert (Hcand : exists r,
               region (detectUserRegion GEO_REGIONS UNKNOWN_REGION_ID env) = Some r /\
               In r candidates).
    { unfold detectUserRegion.
      destruct (detectFromBrowserGeolocation _ _ env) as [b|] eqn:Hb.
      - exists b. split; [reflexivity|]. unfold detectFromBrowserGeolocation in Hb.
        destruct (coords env) as [[latitude longitude]|]; [|discriminate].
        destruct (nearest_candidate latitude longitude Hne) as (r & Hr & Hin).
        congruence.
      - destruct (detectFromTimezone _ _ env) as [t|] eqn:Ht.
        + exists t. split; [reflexivity|]. unfold detectFromTimezone in Ht.
          destruct (timeZone env) as [tz|]; [|discriminate].
          destruct (String.eqb tz ""); [discriminate|].
          apply TimezoneFacts.loop_some in Ht as (m & _ & _ & Hm).
          now apply TimezoneFacts.find_region_some in Hm.
        + cbn [region]. now apply fallback_region_candidate. }
    destruct Hcand as (r & Hr & Hin). exists r. split; [exact Hr|].
    now apply TimezoneFacts.candidate_not_sentinel.
  - intros Hcoords Htz. unfold detectUserRegion, detectFromBrowserGeolocation.
    rewrite Hcoords.
    assert (Hnone : detectFromTimezone GEO_REGIONS UNKNOWN_REGION_ID env = None).
    { unfold detectFromTimezone. destruct (timeZone env) as [tz|]; [|reflexivity].
      destruct (String.eqb tz ""); [reflexivity|].
      apply TimezoneFacts.loop_no_match. now apply Htz. }
    rewrite Hnone. unfold FALLBACK_REGION.
    destruct (List.find _ candidates) as [r|] eqn:Hfind.
    + exists r. split; [reflexivity | now left].
    + destruct candidates as [|c cs] eqn:Hc; [contradiction|].
      exists c. split; [reflexivity|]. right. now split.
Qed.

Section Ordered.

(** What the loop needs of [<]: it is a strict order, and a number that is
    not [NaN] compares with every other one.  Both hold of IEEE-754 doubles
    and of the exact numbers. *)
Hypothesis lt_irrefl : forall x : num, num_lt x x = false.
Hypothesis lt_trans :
  forall x y z : num, num_lt x y = true -> num_lt y z = true -> num_lt x z = true.
Hypothesis lt_negtrans :
  forall x y z : num, is_number y ->
    num_lt x y = false -> num_lt y z = false -> num_lt x z = false.

Lemma lt_asym x y : num_lt x y = true -> num_lt y x = false.
Proof.
  intros Hxy. destruct (num_lt y x) eqn:Hyx; [|reflexivity].
  rewrite <- (lt_irrefl x). symmetry. now apply lt_trans with y.
Qed.

(** The invariant of the loop: [closest] is the first minimum of the regions
    gone through. *)
Lemma nearest_loop_invariant lat0 lng0 regions :
  forall seen_pre r0 seen_post,
    (forall r', In r' seen_pre ->
                num_lt (distance_to lat0 lng0 r0) (distance_to lat0 lng0 r') = true) ->
    (forall r', In r' seen_post ->
                num_lt (distance_to lat0 lng0 r') (distance_to lat0 lng0 r0) = false) ->
    (forall r', In r' (seen_post ++ regions) -> is_number (distance_to lat0 lng0 r')) ->
    exists r,
      nearest_loop lat0 lng0 regions (Some r0, distance_to lat0 lng0 r0)
      = (Some r, distance_to lat0 lng0 r) /\
      first_minimum lat0 lng0 (seen_pre ++ r0 :: seen_post ++ regions) r.
Proof.
  induction regions as [|x regions IH]; intros seen_pre r0 seen_post Hpre Hpost Hnum.
  - exists r0. split; [reflexivity|]. exists seen_pre, seen_post.
    rewrite app_nil_r. auto.
  - rewrite nearest_loop_cons.
    destruct (num_lt (distance_to lat0 lng0 x) (distance_to lat0 lng0 r0)) eqn:Hx.
    + rewrite nearest_step_near by exact Hx.
      destruct (IH (seen_pre ++ r0 :: seen_post) x []) as (r & Hloop & Hmin).
      * intros r' Hr'. apply in_app_or in Hr' as [Hr' | [<- | Hr']].
        -- apply lt_trans with (distance_to lat0 lng0 r0); auto.
        -- exact Hx.
        -- destruct (num_lt (distance_to lat0 lng0 x) (distance_to lat0 lng0 r')) eqn:E;
             [reflexivity|].
           rewrite <- Hx. symmetry.
           apply lt_negtrans with (distance_to lat0 lng0 r'); auto.
           apply Hnum. apply in_or_app. now left.
      * intros r' [].
      * intros r' Hr'. apply Hnum. apply in_or_app. right. now right.
      * exists r. split; [exact Hloop|].
        cbn [app] in Hmin. now rewrite <- app_assoc in Hmin.
    + rewrite nearest_step_far by exact Hx.
      destruct (IH seen_pre r0 (seen_post ++ [x])) as (r & Hloop & Hmin).
      * exact Hpre.
      * intros r' Hr'. apply in_app_or in Hr' as [Hr' | [<- | []]]; auto.
      * intros r' Hr'. apply Hnum. rewrite <- app_assoc in Hr'. exact Hr'.
      * exists r. split; [exact Hloop|]. now rewrite <- app_assoc in Hmin.
Qed.

Lemma first_minimum_least lat0 lng0 regions r :
  first_minimum lat0 lng0 regions r ->
  forall r', In r' regions ->
             num_lt (distance_to lat0 lng0 r') (distance_to lat0 lng0 r) = false.
Proof.
  intros (pre & post & -> & Hpre & Hpost) r' Hr'.
  apply in_app_or in Hr' as [Hr' | [<- | Hr']].
  - apply lt_asym. now apply Hpre.
  - apply lt_irrefl.
  - now apply Hpost.
Qed.

(** C3, as amended: for a coordinate whose distances to the candidate regions
    are numbers (none is [NaN]), the coordinate lookup returns a catalogue
    region other than the sentinel from which no candidate is strictly
    nearer, and which is the first such region in catalogue order: every
    candidate before it is strictly farther. *)
Theorem nearest_is_first_minimum (lat0 lng0 : num) :
  candidates <> [] ->
  (forall r, In r candidates -> is_number (distance_to lat0 lng0 r)) ->
  exists r,
    nearest lat0 lng0 = Some r /\
    In r GEO_REGIONS /\ id r <> UNKNOWN_REGION_ID /\
    (forall r', In r' candidates ->
                num_lt (distance_to lat0 lng0 r') (distance_to lat0 lng0 r) = false) /\
    first_minimum lat0 lng0 candidates r.
Proof.
  intros Hne Hnum. unfold nearestRegion.
  destruct candidates as [|c cs] eqn:Hc; [contradiction|].
  rewrite nearest_loop_cons.
  rewrite nearest_step_near by (apply Hnum; now left).
  destruct (nearest_loop_invariant lat0 lng0 cs [] c []) as (r & Hloop & Hmin).
  - intros r' [].
  - intros r' [].
  - intros r' Hr'. apply Hnum. now right.
  - cbn [app] in Hmin. exists r. rewrite Hloop. cbn [fst].
    assert (Hin : In r (c :: cs))
      by (destruct Hmin as (pre & post & -> & _); apply in_or_app; right; now left).
    rewrite <- Hc in Hin.
    apply (TimezoneFacts.candidate_not_sentinel GEO_REGIONS UNKNOWN_REGION_ID) in Hin
      as [Hin Hid].
    repeat split; auto.
    now apply first_minimum_least.
Qed.

End Ordered.

End Nearest.

End NearestFacts.

(** ** The exact numbers *)

Module ExactFacts.
Import Geo Exact Lra.

Local Open Scope R_scope.

Lemma toRadians_finite (a : R) : toRadians (Finite a) = Finite (a * PI / 180).
Proof.
  unfold toRadians. cbn [num_div num_mul num_lit Math_PI xnum_number lift2 xdiv].
  destruct (Req_EM_T 180 0); [lra | reflexivity].
Qed.

Lemma half_finite (a : R) : num_div (Finite a) (num_lit 2) = Finite (a / 2).
Proof.
  cbn [num_div num_lit xnum_number xdiv].
  destruct (Req_EM_T 2 0); [lra | reflexivity].
Qed.

Lemma sin_half_sq x : sin (x / 2) * sin (x / 2) = (1 - cos x) / 2.
Proof.
  replace x with (2 * (x / 2)) at 3 by field.
  rewrite cos_2a_sin. field.
Qed.

Lemma hav_a_bounds lat1 lng1 lat2 lng2 :
  0 <= hav_a lat1 lng1 lat2 lng2 <= 1.
Proof.
  unfold hav_a.
  rewrite (sin_half_sq ((lat2 - lat1) * PI / 180)).
  replace ((lat2 - lat1) * PI / 180) with (lat2 * PI / 180 - lat1 * PI / 180) by field.
  rewrite cos_minus.
  set (t := sin ((lng2 - lng1) * PI / 180 / 2)).
  pose proof (sin2_cos2 (lat1 * PI / 180)) as H1.
  pose proof (sin2_cos2 (lat2 * PI / 180)) as H2.
  pose proof (SIN_bound ((lng2 - lng1) * PI / 180 / 2)) as Ht. fold t in Ht.
  unfold Rsqr in H1, H2.
  set (c1 := cos (lat1 * PI / 180)) in *. set (c2 := cos (lat2 * PI / 180)) in *.
  set (s1 := sin (lat1 * PI / 180)) in *. set (s2 := sin (lat2 * PI / 180)) in *.
  assert (Hq0 : 0 <= t * t) by (apply Rle_0_sqr).
  assert (Hq1 : t * t <= 1) by nra.
  set (q := t * t) in *.
  assert (Hw : 0 <= 1 - (1 - 2 * q) * (1 - 2 * q)).
  { replace (1 - (1 - 2 * q) * (1 - 2 * q)) with (4 * (q * (1 - q))) by ring.
    apply Rmult_le_pos; [lra|]. apply Rmult_le_pos; lra. }
  set (w := 1 - 2 * q) in *.
  assert (Hc : 0 <= (1 - w * w) * (c1 * c1))
    by (apply Rmult_le_pos; [exact Hw | apply Rle_0_sqr]).
  pose proof (Rle_0_sqr (w * c1 - c2)) as Ha. pose proof (Rle_0_sqr (s1 - s2)) as Hb.
  pose proof (Rle_0_sqr (w * c1 + c2)) as Ha'. pose proof (Rle_0_sqr (s1 + s2)) as Hb'.
  unfold Rsqr in Ha, Hb, Ha', Hb'.
  assert (E : (1 - (c2 * c1 + s2 * s1)) / 2 + c1 * c2 * t * t
              = (1 - (w * c1 * c2 + s1 * s2)) / 2)
    by (unfold w, q; field).
  rewrite E.
  assert (Elow : (w * c1 - c2) * (w * c1 - c2) + (s1 - s2) * (s1 - s2)
                 + (1 - w * w) * (c1 * c1)
                 = (s1 * s1 + c1 * c1) + (s2 * s2 + c2 * c2)
                   - 2 * (w * c1 * c2 + s1 * s2)) by ring.
  assert (Ehigh : (w * c1 + c2) * (w * c1 + c2) + (s1 + s2) * (s1 + s2)
                  + (1 - w * w) * (c1 * c1)
                  = (s1 * s1 + c1 * c1) + (s2 * s2 + c2 * c2)
                    + 2 * (w * c1 * c2 + s1 * s2)) by ring.
  rewrite H1, H2 in Elow, Ehigh.
  split; lra.
Qed.

(** On real coordinates the distance is the haversine formula: no square
    root of a negative number is taken. *)
Lemma haversine_finite (lat1 lng1 lat2 lng2 : R) :
  haversineDistance (Finite lat1) (Finite lng1) (Finite lat2) (Finite lng2)
  = Finite (hav lat1 lng1 lat2 lng2).
Proof.
  pose proof (hav_a_bounds lat1 lng1 lat2 lng2) as [Hlow Hhigh].
  unfold haversineDistance.
  cbn [num_sub xnum_number lift2]. rewrite !toRadians_finite, !half_finite.
  cbn [num_add num_sub num_mul num_lit Math_sin Math_cos Math_sqrt Math_atan2
       xnum_number lift1 lift2 xsqrt].
  fold (hav_a lat1 lng1 lat2 lng2).
  destruct (Rle_dec 0 (hav_a lat1 lng1 lat2 lng2)) as [_|Hn]; [|contradiction].
  destruct (Rle_dec 0 (1 - hav_a lat1 lng1 lat2 lng2)) as [_|Hn]; [|lra].
  reflexivity.
Qed.

Lemma Ratan2_0_1 : Ratan2 0 1 = 0.
Proof.
  unfold Ratan2. destruct (Rlt_dec 0 1) as [_|Hn]; [|lra].
  replace (0 / 1) with 0 by field. apply atan_0.
Qed.

Lemma atan_nonneg x : 0 <= x -> 0 <= atan x.
Proof.
  intros [Hx | <-].
  - left. rewrite <- atan_0. now apply atan_increasing.
  - rewrite atan_0. lra.
Qed.

Lemma Ratan2_nonneg y x : 0 <= y -> 0 <= x -> 0 <= Ratan2 y x.
Proof.
  intros Hy Hx. unfold Ratan2. pose proof PI_RGT_0 as Hpi.
  destruct (Rlt_dec 0 x) as [Hpos|Hnpos].
  - apply atan_nonneg. apply Rmult_le_pos; [exact Hy|].
    left. now apply Rinv_0_lt_compat.
  - destruct (Rlt_dec x 0); [lra|].
    destruct (Rlt_dec 0 y); [lra|].
    destruct (Rlt_dec y 0); lra.
Qed.

Lemma Ratan2_pos y x : 0 < y -> 0 <= x -> 0 < Ratan2 y x.
Proof.
  intros Hy Hx. unfold Ratan2. pose proof PI_RGT_0 as Hpi.
  destruct (Rlt_dec 0 x) as [Hpos|Hnpos].
  - rewrite <- atan_0. apply atan_increasing.
    apply Rmult_lt_0_compat; [exact Hy|]. now apply Rinv_0_lt_compat.
  - destruct (Rlt_dec x 0); [lra|].
    destruct (Rlt_dec 0 y); lra.
Qed.

Lemma hav_a_diag lat0 lng0 : hav_a lat0 lng0 lat0 lng0 = 0.
Proof.
  unfold hav_a.
  replace ((lat0 - lat0) * PI / 180 / 2) with 0 by field.
  replace ((lng0 - lng0) * PI / 180 / 2) with 0 by field.
  rewrite sin_0. ring.
Qed.

(** In exact arithmetic the distance is 0 from a point to itself and is
    never negative. *)
Lemma hav_diag lat0 lng0 : hav lat0 lng0 lat0 lng0 = 0.
Proof.
  unfold hav. rewrite hav_a_diag. rewrite sqrt_0.
  replace (1 - 0) with 1 by ring. rewrite sqrt_1, Ratan2_0_1. ring.
Qed.

Lemma hav_nonneg lat1 lng1 lat2 lng2 : 0 <= hav lat1 lng1 lat2 lng2.
Proof.
  unfold hav.
  pose proof (Ratan2_nonneg _ _ (sqrt_pos (hav_a lat1 lng1 lat2 lng2))
                (sqrt_pos (1 - hav_a lat1 lng1 lat2 lng2))).
  lra.
Qed.

Lemma hav_pos lat1 lng1 lat2 lng2 :
  0 < hav_a lat1 lng1 lat2 lng2 -> 0 < hav lat1 lng1 lat2 lng2.
Proof.
  intros Ha. unfold hav.
  pose proof (Ratan2_pos _ _ (sqrt_lt_R0 _ Ha)
                (sqrt_pos (1 - hav_a lat1 lng1 lat2 lng2))).
  lra.
Qed.

(** With a coordinate that is not a real number the distance is [NaN]. *)
Lemma haversine_nan (lat1 lng1 lat2 lng2 : xnum) :
  is_finite lat1 && is_finite lng1 && is_finite lat2 && is_finite lng2 = false ->
  haversineDistance lat1 lng1 lat2 lng2 = NaN.
Proof.
  intros Hnf.
  destruct lat1 as [a| |], lng1 as [b| |], lat2 as [c| |], lng2 as [d| |];
    try discriminate Hnf; clear Hnf;
    unfold haversineDistance;
    cbn [num_sub xnum_number lift2];
    rewrite ?toRadians_finite, ?half_finite;
    cbn [toRadians num_add num_sub num_mul num_div num_lit Math_PI Math_sin
         Math_cos Math_sqrt Math_atan2 xnum_number lift1 lift2 xsqrt xdiv];
    reflexivity.
Qed.

(** The order laws of [<]. *)
Lemma xlt_irrefl (x : xnum) : num_lt x x = false.
Proof. destruct x as [a| |]; cbn; [|reflexivity..]. destruct (Rlt_dec a a); [lra|reflexivity]. Qed.

Lemma xlt_trans (x y z : xnum) :
  num_lt x y = true -> num_lt y z = true -> num_lt x z = true.
Proof.
  destruct x as [a| |], y as [b| |], z as [c| |]; cbn; try discriminate; try reflexivity.
  destruct (Rlt_dec a b), (Rlt_dec b c), (Rlt_dec a c); try discriminate; try reflexivity; lra.
Qed.

Lemma xlt_negtrans (x y z : xnum) :
  is_number y -> num_lt x y = false -> num_lt y z = false -> num_lt x z = false.
Proof.
  unfold is_number.
  destruct x as [a| |], y as [b| |], z as [c| |]; cbn; try discriminate; try reflexivity.
  destruct (Rlt_dec a b), (Rlt_dec b c), (Rlt_dec a c); try discriminate; try reflexivity; lra.
Qed.

(** No distance is below the distance of a point to itself. *)
Lemma self_distance_least (lat0 lng0 lat1 lng1 : xnum) :
  num_lt (haversineDistance lat0 lng0 lat1 lng1)
         (haversineDistance lat0 lng0 lat0 lng0) = false.
Proof.
  destruct (is_finite lat0 && is_finite lng0) eqn:Hf0.
  - destruct lat0 as [a| |], lng0 as [b| |]; try discriminate Hf0.
    destruct (is_finite lat1 && is_finite lng1) eqn:Hf1.
    + destruct lat1 as [c| |], lng1 as [d| |]; try discriminate Hf1.
      rewrite !haversine_finite, hav_diag. cbn.
      pose proof (hav_nonneg a b c d).
      destruct (Rlt_dec (hav a b c d) 0); [lra|reflexivity].
    + rewrite haversine_nan; [reflexivity|].
      cbn [is_finite andb]. exact Hf1.
  - assert (Hnan : haversineDistance lat0 lng0 lat0 lng0 = NaN).
    { apply haversine_nan. rewrite Hf0. reflexivity. }
    rewrite Hnan. cbn [num_lt xnum_number].
    now destruct (haversineDistance lat0 lng0 lat1 lng1).
Qed.

(** The exact numbers obey the laws of [+0], of sign, of [===] and of the
    last steps of the formula. *)
Lemma exact_zero_laws : zero_laws (num := xnum).
Proof.
  constructor.
  - reflexivity.
  - cbn [num_mul num_lit Math_PI xnum_number lift2]. f_equal. ring.
  - intros z Hz. cbn [num_div num_lit xnum_number xdiv].
    destruct (Req_EM_T (IZR z) 0) as [E|_].
    + apply eq_IZR_R0 in E. lia.
    + f_equal. unfold Rdiv. ring.
  - cbn [Math_sin num_lit xnum_number lift1]. f_equal. apply sin_0.
  - cbn [num_mul num_lit xnum_number lift2]. f_equal. ring.
  - intros x Hx. destruct (Math_cos x) as [c| |] eqn:Hc; try discriminate Hx.
    cbn [num_mul num_lit xnum_number lift2]. f_equal. ring.
  - cbn [num_add num_lit xnum_number lift2]. f_equal. ring.
  - cbn [Math_sqrt num_lit xnum_number xsqrt].
    destruct (Rle_dec 0 0); [f_equal; apply sqrt_0 | lra].
  - cbn [num_sub num_lit xnum_number lift2]. f_equal. ring.
  - cbn [Math_sqrt num_lit xnum_number xsqrt].
    destruct (Rle_dec 0 1); [f_equal; apply sqrt_1 | lra].
  - cbn [Math_atan2 num_lit xnum_number lift2]. f_equal. apply Ratan2_0_1.
  - intros z _. cbn [num_mul num_lit xnum_number lift2]. f_equal. ring.
Qed.

Lemma exact_sign_laws : sign_laws (num := xnum).
Proof.
  constructor.
  - intros [a| |] [b| |]; try reflexivity.
    cbn [num_mul xnum_number lift2]. f_equal. ring.
  - intros [a| |] [b| |]; try (left; reflexivity).
    right. cbn [num_sub num_neg xnum_number xnum_compare lift1 lift2]. f_equal. ring.
  - intros [a| |] [b| |]; try reflexivity.
    cbn [num_mul num_neg xnum_number xnum_compare lift1 lift2]. f_equal. ring.
  - intros [a| |] [b| |]; try reflexivity.
    cbn [num_mul num_neg xnum_number xnum_compare lift1 lift2]. f_equal. ring.
  - intros [a| |] [b| |]; try reflexivity.
    cbn [num_div num_neg xnum_number xnum_compare lift1 xdiv].
    destruct (Req_EM_T b 0) as [|Hb]; [reflexivity|].
    cbn [lift1]. f_equal. now field.
  - intros [a| |]; try reflexivity.
    cbn [Math_sin num_neg xnum_number xnum_compare lift1]. f_equal. apply sin_neg.
Qed.

Lemma exact_equality_law : equality_law (num := xnum).
Proof.
  intros [a| |]; unfold is_number; cbn [num_lt num_eq xnum_number xnum_compare xlt xeq];
    try discriminate.
  intros _. destruct (Req_EM_T a a); congruence.
Qed.

Lemma exact_distance_laws : distance_laws (num := xnum).
Proof.
  constructor.
  - intros [r| |]; try reflexivity. unfold not_below_zero.
    cbn [Math_sqrt Math_atan2 num_sub num_lit num_lt xnum_number xsqrt lift2].
    destruct (Rle_dec 0 r); [|reflexivity].
    destruct (Rle_dec 0 (1 - r)); [|reflexivity].
    cbn [lift2 xlt].
    pose proof (Ratan2_nonneg _ _ (sqrt_pos r) (sqrt_pos (1 - r))).
    destruct (Rlt_dec _ 0); [lra | reflexivity].
  - intros z [r| |] Hz; try (intros _; reflexivity). unfold not_below_zero.
    cbn [num_mul num_lit num_lt xnum_number lift2 xlt].
    destruct (Rlt_dec r 0); [discriminate|]. intros _.
    destruct (Rlt_dec (IZR z * r) 0); [|reflexivity].
    assert (0 < IZR z) by (apply IZR_lt; lia). nra.
Qed.

(** Two real numbers make a finite point. *)
Lemma exact_finite_point (a b : R) : finite_point (Finite a) (Finite b).
Proof.
  split; [|split].
  - cbn [num_sub num_lit xnum_number lift2]. f_equal. ring.
  - cbn [num_sub num_lit xnum_number lift2]. f_equal. ring.
  - rewrite toRadians_finite. reflexivity.
Qed.

End ExactFacts.

(** ** The lookups on the exact catalogues *)

Module ExactLookups.
Import Str Geo Exact Rules ExactFacts DistanceFacts NearestFacts Lra.

Local Open Scope R_scope.

Lemma equator_candidates :
  REGION_CANDIDATES equator_catalogue "unknown"
  = [ mkRegion "oceania" (Finite 0) (Finite 180);
      mkRegion "africa" (Finite 0) (Finite 0) ].
Proof. reflexivity. Qed.

Lemma shared_point_candidates :
  REGION_CANDIDATES shared_point_catalogue "unknown"
  = [ mkRegion "euCentral" (Finite 50) (Finite 10);
      mkRegion "euWest" (Finite 50) (Finite 10) ].
Proof. reflexivity. Qed.

Lemma finite_is_number (lat0 lng0 : R) (r : GeoRegionConfig xnum) :
  (exists a b, lat r = Finite a /\ lng r = Finite b) ->
  is_number (distance_to (Finite lat0) (Finite lng0) r).
Proof.
  intros (a & b & Ha & Hb). unfold is_number, distance_to.
  rewrite Ha, Hb, haversine_finite. reflexivity.
Qed.

Lemma half_turn_apart : 0 < hav 0 0 0 180.
Proof.
  apply hav_pos. unfold hav_a.
  replace ((0 - 0) * PI / 180 / 2) with 0 by field.
  replace ((180 - 0) * PI / 180 / 2) with (PI / 2) by field.
  replace (0 * PI / 180) with 0 by field.
  rewrite sin_0, cos_0, sin_PI2. lra.
Qed.

(** The first minimum at the equator catalogue, in exact arithmetic. *)
Lemma nearest_is_first_minimum_witness :
  exists r,
    nearestRegion equator_catalogue "unknown" (Finite 0) (Finite 0) = Some r /\
    In r equator_catalogue /\ id r <> "unknown"%string /\
    (forall r', In r' (REGION_CANDIDATES equator_catalogue "unknown") ->
                num_lt (distance_to (Finite 0) (Finite 0) r')
                       (distance_to (Finite 0) (Finite 0) r) = false) /\
    first_minimum (Finite 0) (Finite 0)
                  (REGION_CANDIDATES equator_catalogue "unknown") r.
Proof.
  apply (nearest_is_first_minimum equator_catalogue "unknown"
           xlt_irrefl xlt_trans xlt_negtrans (Finite 0) (Finite 0)).
  - rewrite equator_candidates. discriminate.
  - rewrite equator_candidates. intros r [<- | [<- | []]];
      apply finite_is_number; cbn [lat lng]; eauto.
Defined.

(** C3, the claim as worded fails: at a [NaN] coordinate every distance is
    [NaN] and the lookup of the Atlantic catalogue returns [usEast], the
    fallback region.  It is the second candidate, and it is not the first
    region at the least distance: the candidate before it is not strictly
    farther. *)
Lemma nearest_is_first_minimum_counterexample :
  REGION_CANDIDATES atlantic_catalogue "unknown"
  = [ mkRegion "euWest" (Finite 53) (Finite (-6));
      mkRegion "usEast" (Finite 39) (Finite (-77)) ] /\
  nearestRegion atlantic_catalogue "unknown" NaN NaN
  = Some (mkRegion "usEast" (Finite 39) (Finite (-77))) /\
  ~ first_minimum NaN NaN (REGION_CANDIDATES atlantic_catalogue "unknown")
      (mkRegion "usEast" (Finite 39) (Finite (-77))).
Proof.
  assert (Hcand : REGION_CANDIDATES atlantic_catalogue "unknown"
                  = [ mkRegion "euWest" (Finite 53) (Finite (-6));
                      mkRegion "usEast" (Finite 39) (Finite (-77)) ])
    by reflexivity.
  split; [exact Hcand|]. split.
  - unfold nearestRegion. rewrite nearest_loop_stay; [reflexivity|].
    intros r _. unfold distance_to. now rewrite haversine_nan.
  - rewrite Hcand. intros (pre & post & Hsplit & Hpre & _).
    destruct pre as [|x [|y pre]].
    + cbn [app] in Hsplit. discriminate Hsplit.
    + specialize (Hpre x (or_introl eq_refl)). unfold distance_to in Hpre.
      rewrite !haversine_nan in Hpre by reflexivity. discriminate Hpre.
    + apply (f_equal (@length _)) in Hsplit. cbn [length app] in Hsplit.
      rewrite length_app in Hsplit. cbn [length] in Hsplit. lia.
Qed.



(** C5, the claim as worded fails: two regions share the reference point
    (50, 10); at that coordinate the lookup returns the first of them, so for
    the second one it does not return the region itself.  And a region
    without coordinates is not returned at its own: every distance from
    there is [NaN], and the lookup returns the fallback region. *)
Lemma nearest_of_reference_point_counterexample :
  (In (mkRegion "euWest" (Finite 50) (Finite 10))
      (REGION_CANDIDATES shared_point_catalogue "unknown") /\
   nearestRegion shared_point_catalogue "unknown" (Finite 50) (Finite 10)
     = Some (mkRegion "euCentral" (Finite 50) (Finite 10)) /\
   nearestRegion shared_point_catalogue "unknown" (Finite 50) (Finite 10)
     <> Some (mkRegion "euWest" (Finite 50) (Finite 10))) /\
  (In (mkRegion "euWest" NaN NaN)
      (REGION_CANDIDATES patchy_catalogue "unknown") /\
   nearestRegion patchy_catalogue "unknown" NaN NaN
     = Some (mkRegion "usEast" (Finite 39) (Finite (-77))) /\
   nearestRegion patchy_catalogue "unknown" NaN NaN
     <> Some (mkRegion "euWest" NaN NaN)).
Proof.
  assert (Hnear : nearestRegion shared_point_catalogue "unknown" (Finite 50) (Finite 10)
                  = Some (mkRegion "euCentral" (Finite 50) (Finite 10))).
  { unfold nearestRegion. rewrite shared_point_candidates.
    rewrite !nearest_loop_cons.
    rewrite nearest_step_near
      by (unfold distance_to; cbn [lat lng]; rewrite haversine_finite; reflexivity).
    rewrite nearest_step_far; [reflexivity|].
    unfold distance_to. cbn [lat lng]. apply self_distance_least. }
  assert (Hnan : nearestRegion patchy_catalogue "unknown" NaN NaN
                 = Some (mkRegion "usEast" (Finite 39) (Finite (-77)))).
  { unfold nearestRegion. rewrite nearest_loop_stay; [reflexivity|].
    intros r _. unfold distance_to. now rewrite haversine_nan. }
  split; split; [| split | | split].
  - rewrite shared_point_candidates. right. now left.
  - exact Hnear.
  - rewrite Hnear. discriminate.
  - now left.
  - exact Hnan.
  - rewrite Hnan. discriminate.
Qed.

(** The second region of the equator catalogue, at its own reference point. *)
Lemma nearest_of_reference_point_witness :
  nearestRegion equator_catalogue "unknown" (Finite 0) (Finite 0)
  = Some (mkRegion "africa" (Finite 0) (Finite 0)) /\
  In (mkRegion "africa" (Finite 0) (Finite 0)) equator_catalogue /\
  "africa"%string <> "unknown"%string /\
  distance_to (Finite 0) (Finite 0) (mkRegion "africa" (Finite 0) (Finite 0))
  = num_lit 0.
Proof.
  apply (nearest_of_reference_point equator_catalogue "unknown"
           (mkRegion "africa" (Finite 0) (Finite 0))
           [mkRegion "oceania" (Finite 0) (Finite 180)] []
           exact_zero_laws exact_distance_laws).
  - exact equator_candidates.
  - apply exact_finite_point.
  - intros r' [<- | []]. unfold distance_to. cbn [lat lng].
    rewrite haversine_finite. cbn [num_lt num_lit xnum_number xlt].
    pose proof half_turn_apart.
    destruct (Rlt_dec 0 (hav 0 0 0 180)); [reflexivity | lra].
Defined.

(** Detection without a position and with a timezone no rule knows. *)
Lemma detectUserRegion_total_witness :
  (exists r,
      region (detectUserRegion equator_catalogue "unknown"
                (mkEnv None (Some "Mars/Olympus"%string))) = Some r /\
      In r equator_catalogue /\ id r <> "unknown"%string) /\
  exists fb,
    detectUserRegion equator_catalogue "unknown"
      (mkEnv None (Some "Mars/Olympus"%string)) = mkResult (Some fb) fallback /\
    (List.find (fun region => String.eqb (id region) "usEast")
               (REGION_CANDIDATES equator_catalogue "unknown") = Some fb \/
     (List.find (fun region => String.eqb (id region) "usEast")
                (REGION_CANDIDATES equator_catalogue "unknown") = None /\
      List.head (REGION_CANDIDATES equator_catalogue "unknown") = Some fb)).
Proof.
  assert (Hne : REGION_CANDIDATES equator_catalogue "unknown" <> [])
    by (rewrite equator_candidates; discriminate).
  destruct (detectUserRegion_total equator_catalogue "unknown"
              (mkEnv None (Some "Mars/Olympus"%string)) Hne) as [Hregion Hfallback].
  split; [exact Hregion|].
  apply Hfallback; [reflexivity|].
  intros tz [= <-]. vm_compute. reflexivity.
Defined.

End ExactLookups.

(** ** Reputation scores *)

Module ReputationFacts.
Import Scores Reputation Lqa.

Section Scores.

Context {num : Type} `{ScoreNumber num}.
Variables success_step failure_step timeout_share : num.

Local Abbreviation rec := (record success_step failure_step timeout_share).
Local Abbreviation rec_n := (record_n success_step failure_step timeout_share).
Local Abbreviation step := (score_step success_step failure_step timeout_share).
Local Abbreviation history := (replay success_step failure_step timeout_share).

Lemma score_of_record_same (st : gmap PeerId (ReputationEntry num)) p o :
  score_of (rec st p o) p = step o (score_of st p).
Proof.
  unfold record, score_of. rewrite lookup_insert_eq.
  destruct (st !! p) as [e|]; destruct o; reflexivity.
Qed.

Lemma score_of_record_other (st : gmap PeerId (ReputationEntry num)) p q o :
  p <> q -> score_of (rec st p o) q = score_of st q.
Proof. intros Hne. unfold record, score_of. now rewrite lookup_insert_ne. Qed.

Lemma score_of_empty p :
  score_of (∅ : gmap PeerId (ReputationEntry num)) p = neutral.
Proof. unfold score_of. now rewrite lookup_empty. Qed.

Lemma replay_snoc events ev :
  history (events ++ [ev]) = rec (history events) (fst ev) (snd ev).
Proof. unfold replay. now rewrite fold_left_app. Qed.

Lemma record_n_succ n p o (st : gmap PeerId (ReputationEntry num)) :
  rec_n (S n) p o st = rec (rec_n n p o st) p o.
Proof. reflexivity. Qed.

Section Rounded.

(** The arithmetic obeys the laws, and the two steps and the share are
    fractions: numbers of [[0,1]]. *)
Hypothesis Hlaws : rounding_laws (num := num).
Hypothesis success_fraction : in_unit_range success_step.
Hypothesis failure_fraction : in_unit_range failure_step.
Hypothesis share_fraction : in_unit_range timeout_share.

Lemma one_minus_unit x : in_unit_range x -> in_unit_range (score_sub score_one x).
Proof.
  intros Hx. destruct (law_zero_one Hlaws) as [H0 H1]. split.
  - apply (law_leb_trans Hlaws) with (score_sub score_one score_one).
    + now apply (law_sub_self Hlaws).
    + apply (law_sub_antitone Hlaws); auto. apply Hx.
  - apply (law_leb_trans Hlaws) with (score_sub score_one score_zero).
    + apply (law_sub_antitone Hlaws); auto. apply Hx.
    + now apply (law_sub_zero Hlaws).
Qed.

(** A fraction of [y] is between 0 and [y]. *)
Lemma fraction_of a y :
  in_unit_range a -> in_unit_range y ->
  score_leb score_zero (score_mul a y) = true /\
  score_leb (score_mul a y) y = true.
Proof.
  intros Ha Hy. destruct (law_zero_one Hlaws) as [H0 H1]. split.
  - apply (law_leb_trans Hlaws) with (score_mul score_zero y).
    + now apply (law_mul_zero Hlaws).
    + apply (law_mul_monotone Hlaws); auto. apply Ha.
  - apply (law_leb_trans Hlaws) with (score_mul score_one y).
    + apply (law_mul_monotone Hlaws); auto. apply Ha.
    + now apply (law_mul_one Hlaws).
Qed.

Lemma fraction_unit a y :
  in_unit_range a -> in_unit_range y -> in_unit_range (score_mul a y).
Proof.
  intros Ha Hy. destruct (fraction_of a y Ha Hy) as [H0 Hle].
  split; [exact H0 | exact (law_leb_trans Hlaws _ _ _ Hle (proj2 Hy))].
Qed.

(** Moving toward 1 by a fraction of the way left. *)
Lemma toward_one a s :
  in_unit_range a -> in_unit_range s ->
  score_leb s (score_add s (score_mul a (score_sub score_one s))) = true /\
  in_unit_range (score_add s (score_mul a (score_sub score_one s))).
Proof.
  intros Ha Hs. destruct (law_zero_one Hlaws) as [H0 H1].
  pose proof (one_minus_unit s Hs) as Hd.
  pose proof (fraction_unit a _ Ha Hd) as Hm.
  destruct (fraction_of a _ Ha Hd) as [_ Hmd].
  assert (Hup : score_leb s (score_add s (score_mul a (score_sub score_one s)))
                = true).
  { apply (law_leb_trans Hlaws) with (score_add s score_zero).
    - now apply (law_add_zero Hlaws).
    - apply (law_add_monotone Hlaws); auto. apply Hm. }
  split; [exact Hup|]. split.
  - exact (law_leb_trans Hlaws _ _ _ (proj1 Hs) Hup).
  - apply (law_leb_trans Hlaws) with (score_add s (score_sub score_one s)).
    + now apply (law_add_monotone Hlaws).
    + now apply (law_add_complement Hlaws).
Qed.

(** Moving toward 0 by a fraction of the score. *)
Lemma toward_zero b s :
  in_unit_range b -> in_unit_range s ->
  score_leb (score_sub s (score_mul b s)) s = true /\
  in_unit_range (score_sub s (score_mul b s)).
Proof.
  intros Hb Hs. destruct (law_zero_one Hlaws) as [H0 H1].
  pose proof (fraction_unit b s Hb Hs) as Hm.
  destruct (fraction_of b s Hb Hs) as [_ Hms].
  assert (Hle : score_leb (score_sub s (score_mul b s)) s = true).
  { apply (law_leb_trans Hlaws) with (score_sub s score_zero).
    - apply (law_sub_antitone Hlaws); auto. apply Hm.
    - now apply (law_sub_zero Hlaws). }
  split; [exact Hle|]. split.
  - apply (law_leb_trans Hlaws) with (score_sub s s).
    + now apply (law_sub_self Hlaws).
    + now apply (law_sub_antitone Hlaws).
  - exact (law_leb_trans Hlaws _ _ _ Hle (proj2 Hs)).
Qed.

(** The step of a timeout is a fraction, and not above the failure step. *)
Lemma timeout_step_fraction :
  in_unit_range (timeout_step failure_step timeout_share) /\
  score_leb (timeout_step failure_step timeout_share) failure_step = true.
Proof.
  unfold timeout_step. split.
  - now apply fraction_unit.
  - now apply fraction_of.
Qed.

Lemma step_unit o s : in_unit_range s -> in_unit_range (step o s).
Proof.
  intros Hs. destruct o; cbn [score_step].
  - now apply toward_one.
  - now apply toward_zero.
  - apply toward_zero; [apply timeout_step_fraction | exact Hs].
Qed.

(** A failure leaves no more of a score than a timeout does. *)
Lemma failure_below_timeout s :
  in_unit_range s -> score_leb (step Failure s) (step Timeout s) = true.
Proof.
  intros Hs. cbn [score_step].
  destruct timeout_step_fraction as [Ht Htf].
  apply (law_sub_antitone Hlaws); [exact Hs | | |].
  - now apply fraction_unit.
  - now apply fraction_unit.
  - now apply (law_mul_monotone Hlaws).
Qed.

Lemma unit_record st p o :
  (forall q, in_unit_range (score_of st q)) ->
  forall q, in_unit_range (score_of (rec st p o) q).
Proof.
  intros Hst q. destruct (decide (p = q)) as [<- | Hne].
  - rewrite score_of_record_same. apply step_unit, Hst.
  - rewrite score_of_record_other by exact Hne. apply Hst.
Qed.

Lemma unit_history events p : in_unit_range (score_of (history events) p).
Proof.
  revert p. induction events as [|ev events IH] using rev_ind.
  - intros p. unfold replay. cbn [fold_left]. rewrite score_of_empty.
    apply (law_half Hlaws).
  - rewrite replay_snoc. now apply unit_record.
Qed.

Lemma unit_record_n n p o st :
  (forall q, in_unit_range (score_of st q)) ->
  forall q, in_unit_range (score_of (rec_n n p o st) q).
Proof.
  intros Hst. induction n as [|n IH]; [exact Hst|].
  rewrite record_n_succ. now apply unit_record.
Qed.

(** C6, as amended: after any finite sequence of recorded outcomes every
    score is in [[0,1]]; recording Success again and again never makes the
    score of the peer smaller and never takes it above 1; recording Failure
    again and again never makes it larger and never takes it below 0.
    Proved for every arithmetic that obeys the rounding laws, binary64
    among them. *)
Theorem reputation_score_bounds (events : list (PeerId * Outcome)) (p : PeerId) :
  in_unit_range (score_of (history events) p) /\
  (forall n,
      score_leb (score_of (rec_n n p Success (history events)) p)
                (score_of (rec_n (S n) p Success (history events)) p) = true /\
      score_leb (score_of (rec_n (S n) p Success (history events)) p)
                score_one = true) /\
  (forall n,
      score_leb score_zero
                (score_of (rec_n (S n) p Failure (history events)) p) = true /\
      score_leb (score_of (rec_n (S n) p Failure (history events)) p)
                (score_of (rec_n n p Failure (history events)) p) = true).
Proof.
  assert (Hs : forall n o, in_unit_range (score_of (rec_n n p o (history events)) p)).
  { intros n o. apply unit_record_n. intros q. apply unit_history. }
  split; [apply unit_history|]. split.
  - intros n. rewrite record_n_succ, score_of_record_same. cbn [score_step].
    destruct (toward_one success_step _ success_fraction (Hs n Success))
      as [Hup [_ Hcap]].
    now split.
  - intros n. rewrite record_n_succ, score_of_record_same. cbn [score_step].
    destruct (toward_zero failure_step _ failure_fraction (Hs n Failure))
      as [Hdown [Hzero _]].
    now split.
Qed.

End Rounded.

End Scores.

(** *** Rational scores *)

Local Open Scope Q_scope.

Ltac rational_order :=
  unfold in_unit_range in *;
  cbn [score_zero score_one score_half score_add score_sub score_mul score_leb
       rational] in *;
  rewrite ?Qle_bool_iff in *.

(** The rationals obey the rounding laws. *)
Lemma rational_rounding_laws : rounding_laws (num := Q).
Proof.
  constructor.
  - repeat split; reflexivity.
  - split; reflexivity.
  - intros x y z Hxy Hyz. rational_order. lra.
  - intros x Hx. rational_order. lra.
  - intros x y y' Hx Hy Hy' Hle. rational_order. lra.
  - intros x Hx. rational_order. lra.
  - intros x Hx. rational_order. lra.
  - intros x Hx. rational_order. lra.
  - intros x y y' Hx Hy Hy' Hle. rational_order. lra.
  - intros y Hy. rational_order. lra.
  - intros y Hy. rational_order. lra.
  - intros a b y Ha Hb Hy Hab. rational_order. destruct Hy.
    assert (0 <= (b - a) * y) by (apply Qmult_le_0_compat; lra).
    lra.
Qed.

(** A sequence that loses the fraction [c] of itself at every step falls
    below every positive bound. *)
Lemma inject_nat_succ n : inject_Z (Z.of_nat (S n)) == inject_Z (Z.of_nat n) + 1.
Proof. rewrite Nat2Z.inj_succ. unfold Z.succ. rewrite inject_Z_plus. reflexivity. Qed.

Lemma inject_nat_nonneg n : 0 <= inject_Z (Z.of_nat n).
Proof. change 0 with (inject_Z 0). rewrite <- Zle_Qle. lia. Qed.

Lemma geometric_bound (c : Q) (x : nat -> Q) :
  0 < c /\ c < 1 ->
  (forall n, 0 <= x n) ->
  (forall n, x (S n) == (1 - c) * x n) ->
  forall n, x n * (1 + inject_Z (Z.of_nat n) * c) <= x 0%nat.
Proof.
  intros [Hc0 Hc1] Hpos Hstep n. induction n as [|n IH].
  - change (inject_Z (Z.of_nat 0)) with 0.
    assert (E : x 0%nat * (1 + 0 * c) == x 0%nat) by ring.
    rewrite E. apply Qle_refl.
  - rewrite Hstep, inject_nat_succ.
    pose proof (Hpos n) as Hx. pose proof (inject_nat_nonneg n) as Hn.
    set (k := inject_Z (Z.of_nat n)) in *.
    assert (H : (1 - c) * x n * (1 + (k + 1) * c)
                == x n * (1 + k * c) - x n * ((k + 1) * (c * c))) by ring.
    rewrite H.
    assert (0 <= x n * ((k + 1) * (c * c))).
    { apply Qmult_le_0_compat; [exact Hx|].
      apply Qmult_le_0_compat; [lra|]. apply Qmult_le_0_compat; lra. }
    lra.
Qed.

Lemma geometric_vanishes (c : Q) (x : nat -> Q) :
  0 < c /\ c < 1 ->
  (forall n, 0 <= x n) ->
  (forall n, x (S n) == (1 - c) * x n) ->
  forall eps, 0 < eps -> exists n, x n < eps.
Proof.
  intros Hc Hpos Hstep eps Heps.
  pose proof (geometric_bound c x Hc Hpos Hstep) as Hbound.
  destruct Hc as [Hc0 Hc1].
  set (q := x 0%nat / (eps * c)).
  exists (Z.to_nat (Qceiling q)).
  specialize (Hbound (Z.to_nat (Qceiling q))).
  set (k := inject_Z (Z.of_nat (Z.to_nat (Qceiling q)))) in *.
  assert (Hk : q <= k).
  { unfold k. apply Qle_trans with (inject_Z (Qceiling q)); [apply Qle_ceiling|].
    rewrite <- Zle_Qle. lia. }
  assert (Hec : 0 < eps * c) by (apply Qmult_lt_0_compat; assumption).
  assert (Hx0 : x 0%nat == q * (eps * c)).
  { unfold q. field. split; lra. }
  assert (Hk0 : 0 <= k) by apply inject_nat_nonneg.
  assert (H1 : 0 < 1 + k * c).
  { assert (0 <= k * c) by (apply Qmult_le_0_compat; lra). lra. }
  destruct (Qlt_le_dec (x (Z.to_nat (Qceiling q))) eps) as [Hlt | Hge]; [exact Hlt|].
  exfalso.
  assert (H2 : eps * (1 + k * c) <= x (Z.to_nat (Qceiling q)) * (1 + k * c)).
  { apply Qmult_le_compat_r; lra. }
  assert (H3 : q * (eps * c) <= k * (eps * c)).
  { apply Qmult_le_compat_r; lra. }
  lra.
Qed.

Section Exact.

(** Without rounding, and with steps strictly between 0 and 1, the scores
    move as the specification words it. *)
Variables success_step failure_step timeout_share : Q.

Local Abbreviation rec := (record success_step failure_step timeout_share).
Local Abbreviation rec_n := (record_n success_step failure_step timeout_share).
Local Abbreviation step := (score_step success_step failure_step timeout_share).
Local Abbreviation history := (replay success_step failure_step timeout_share).

Hypothesis success_proper : 0 < success_step /\ success_step < 1.
Hypothesis failure_proper : 0 < failure_step /\ failure_step < 1.
Hypothesis share_proper : 0 <= timeout_share /\ timeout_share <= 1.

Lemma exact_toward_one a s :
  0 < a /\ a < 1 -> s < 1 -> s < s + a * (1 - s) /\ s + a * (1 - s) < 1.
Proof.
  intros [Ha0 Ha1] Hs1.
  assert (0 < a * (1 - s)) by (apply Qmult_lt_0_compat; lra).
  assert (0 < (1 - a) * (1 - s)) by (apply Qmult_lt_0_compat; lra).
  split; lra.
Qed.

Lemma exact_toward_zero b s :
  0 <= b /\ b < 1 -> 0 < s -> 0 < s - b * s /\ s - b * s <= s.
Proof.
  intros [Hb0 Hb1] Hs0.
  assert (0 <= b * s) by (apply Qmult_le_0_compat; lra).
  assert (0 < (1 - b) * s) by (apply Qmult_lt_0_compat; lra).
  split; lra.
Qed.

Lemma exact_timeout_step :
  0 <= timeout_step failure_step timeout_share /\
  timeout_step failure_step timeout_share < 1.
Proof.
  unfold timeout_step. cbn [score_mul rational].
  destruct share_proper, failure_proper.
  assert (0 <= timeout_share * failure_step) by (apply Qmult_le_0_compat; lra).
  assert (0 <= (1 - timeout_share) * failure_step)
    by (apply Qmult_le_0_compat; lra).
  split; lra.
Qed.

Lemma step_interior o s : 0 < s /\ s < 1 -> 0 < step o s /\ step o s < 1.
Proof.
  intros [Hs0 Hs1]. destruct o;
    cbn [score_step score_add score_sub score_mul score_one rational].
  - destruct (exact_toward_one success_step s success_proper Hs1). split; lra.
  - destruct (exact_toward_zero failure_step s) as [? ?]; [lra | exact Hs0 |].
    split; lra.
  - destruct (exact_toward_zero _ s exact_timeout_step Hs0). split; lra.
Qed.

Lemma interior_record st p o : interior st -> interior (rec st p o).
Proof.
  intros Hst q. destruct (decide (p = q)) as [<- | Hne].
  - rewrite score_of_record_same. apply step_interior, Hst.
  - rewrite score_of_record_other by exact Hne. apply Hst.
Qed.

Lemma interior_history events : interior (history events).
Proof.
  induction events as [|ev events IH] using rev_ind.
  - intros p. unfold replay. cbn [fold_left]. rewrite score_of_empty.
    split; reflexivity.
  - rewrite replay_snoc. now apply interior_record.
Qed.

Lemma interior_record_n n p o st : interior st -> interior (rec_n n p o st).
Proof.
  intros Hst. induction n as [|n IH]; [exact Hst|].
  rewrite record_n_succ. now apply interior_record.
Qed.

Lemma success_gap n p st :
  1 - score_of (rec_n (S n) p Success st) p
  == (1 - success_step) * (1 - score_of (rec_n n p Success st) p).
Proof.
  rewrite record_n_succ, score_of_record_same.
  cbn [score_step score_add score_sub score_mul score_one rational]. ring.
Qed.

Lemma failure_gap n p st :
  score_of (rec_n (S n) p Failure st) p
  == (1 - failure_step) * score_of (rec_n n p Failure st) p.
Proof.
  rewrite record_n_succ, score_of_record_same.
  cbn [score_step score_add score_sub score_mul score_one rational]. ring.
Qed.

(** With rational scores every score stays strictly inside (0,1); recording
    Success again and again makes the score strictly larger each time, never
    1, and as close to 1 as one likes; recording Failure again and again
    makes it strictly smaller each time, never 0, and as close to 0 as one
    likes. *)
Lemma rational_scores_never_arrive (events : list (PeerId * Outcome)) (p : PeerId) :
  (0 < score_of (history events) p /\ score_of (history events) p < 1) /\
  (forall n,
      score_of (rec_n n p Success (history events)) p
      < score_of (rec_n (S n) p Success (history events)) p /\
      score_of (rec_n (S n) p Success (history events)) p < 1) /\
  (forall eps, 0 < eps ->
      exists n, 1 - eps < score_of (rec_n n p Success (history events)) p) /\
  (forall n,
      0 < score_of (rec_n (S n) p Failure (history events)) p /\
      score_of (rec_n (S n) p Failure (history events)) p
      < score_of (rec_n n p Failure (history events)) p) /\
  (forall eps, 0 < eps ->
      exists n, score_of (rec_n n p Failure (history events)) p < eps).
Proof.
  pose proof (interior_history events) as Hst.
  assert (Hs : forall n, 0 < score_of (rec_n n p Success (history events)) p /\
                         score_of (rec_n n p Success (history events)) p < 1)
    by (intros n; now apply interior_record_n).
  assert (Hf : forall n, 0 < score_of (rec_n n p Failure (history events)) p /\
                         score_of (rec_n n p Failure (history events)) p < 1)
    by (intros n; now apply interior_record_n).
  split; [apply Hst|]. split; [|split; [|split]].
  - intros n. rewrite record_n_succ, score_of_record_same.
    cbn [score_step score_add score_sub score_mul score_one rational].
    apply exact_toward_one; [exact success_proper | apply Hs].
  - intros eps Heps.
    destruct (geometric_vanishes success_step
                (fun n => 1 - score_of (rec_n n p Success (history events)) p)
                success_proper) with (eps := eps) as [n Hn]; auto.
    + intros n. destruct (Hs n). lra.
    + intros n. apply success_gap.
    + exists n. cbv beta in Hn. lra.
  - intros n. split; [apply Hf|].
    rewrite failure_gap. destruct (Hf n) as [Hpos _]. destruct failure_proper.
    assert (0 < failure_step * score_of (rec_n n p Failure (history events)) p)
      by (apply Qmult_lt_0_compat; assumption).
    lra.
  - intros eps Heps.
    destruct (geometric_vanishes failure_step
                (fun n => score_of (rec_n n p Failure (history events)) p)
                failure_proper) with (eps := eps) as [n Hn]; auto.
    + intros n. destruct (Hf n). lra.
    + intros n. apply failure_gap.
    + exists n. exact Hn.
Qed.

End Exact.

(** The bounds with rational scores, steps 1/10 and 1/5 and a timeout share
    of 1/2, after a success and a timeout. *)
Lemma reputation_score_bounds_witness :
  in_unit_range
    (score_of (replay (1 # 10) (1 # 5) (1 # 2)
                      [("peerA"%string, Success); ("peerA"%string, Timeout)])
              "peerA") /\
  (forall n,
      score_leb
        (score_of (record_n (1 # 10) (1 # 5) (1 # 2) n "peerA" Success
                     (replay (1 # 10) (1 # 5) (1 # 2)
                        [("peerA"%string, Success); ("peerA"%string, Timeout)]))
                  "peerA")
        (score_of (record_n (1 # 10) (1 # 5) (1 # 2) (S n) "peerA" Success
                     (replay (1 # 10) (1 # 5) (1 # 2)
                        [("peerA"%string, Success); ("peerA"%string, Timeout)]))
                  "peerA") = true /\
      score_leb
        (score_of (record_n (1 # 10) (1 # 5) (1 # 2) (S n) "peerA" Success
                     (replay (1 # 10) (1 # 5) (1 # 2)
                        [("peerA"%string, Success); ("peerA"%string, Timeout)]))
                  "peerA")
        score_one = true) /\
  (forall n,
      score_leb score_zero
        (score_of (record_n (1 # 10) (1 # 5) (1 # 2) (S n) "peerA" Failure
                     (replay (1 # 10) (1 # 5) (1 # 2)
                        [("peerA"%string, Success); ("peerA"%string, Timeout)]))
                  "peerA") = true /\
      score_leb
        (score_of (record_n (1 # 10) (1 # 5) (1 # 2) (S n) "peerA" Failure
                     (replay (1 # 10) (1 # 5) (1 # 2)
                        [("peerA"%string, Success); ("peerA"%string, Timeout)]))
                  "peerA")
        (score_of (record_n (1 # 10) (1 # 5) (1 # 2) n "peerA" Failure
                     (replay (1 # 10) (1 # 5) (1 # 2)
                        [("peerA"%string, Success); ("peerA"%string, Timeout)]))
                  "peerA") = true).
Proof.
  apply (reputation_score_bounds (1 # 10) (1 # 5) (1 # 2) rational_rounding_laws);
    split; reflexivity.
Defined.

(** C6, the claim as worded fails with the float of the data model: with a
    success step of 0.5 the score of a new peer is exactly 1.0 after 53
    successes, and the 54th does not increase it; with a failure step of
    0.75 it is exactly 0.0 after 540 failures. *)
Lemma reputation_score_bounds_counterexample :
  score_of (record_n 0.5%float 0.75%float 0.5%float 53 "peerA" Success
              (replay 0.5%float 0.75%float 0.5%float []))
           "peerA" = 1%float /\
  score_ltb
    (score_of (record_n 0.5%float 0.75%float 0.5%float 53 "peerA" Success
                 (replay 0.5%float 0.75%float 0.5%float []))
              "peerA")
    (score_of (record_n 0.5%float 0.75%float 0.5%float 54 "peerA" Success
                 (replay 0.5%float 0.75%float 0.5%float []))
              "peerA") = false /\
  score_of (record_n 0.5%float 0.75%float 0.5%float 540 "peerA" Failure
              (replay 0.5%float 0.75%float 0.5%float []))
           "peerA" = 0%float.
Proof. vm_compute. repeat split. Qed.

End ReputationFacts.

(** ** Delivery on the rendezvous channel *)

Module RendezvousFacts.
Import Reputation Rendezvous.

Lemma relay_directed_other (srv : Server) sender to type data c :
  c <> to -> relay srv sender (Directed to type data) !! c = srv !! c.
Proof.
  intros Hne. cbn [relay]. destruct (srv !! to) as [inbox|] eqn:Hto; [|reflexivity].
  now rewrite lookup_insert_ne.
Qed.

Lemma relay_directed_recipient (srv : Server) sender to type data :
  relay srv sender (Directed to type data) !! to
  = (fun inbox => inbox ++ [mkDelivery sender (Directed to type data)]) <$> srv !! to.
Proof.
  cbn [relay]. destruct (srv !! to) as [inbox|] eqn:Hto.
  - now rewrite lookup_insert_eq.
  - now rewrite Hto.
Qed.

Lemma relay_broadcast_lookup (srv : Server) sender type payload c :
  relay srv sender (Broadcast type payload) !! c
  = (fun inbox => if bool_decide (c = sender) then inbox
                  else inbox ++ [mkDelivery sender (Broadcast type payload)])
      <$> srv !! c.
Proof.
  cbn [relay]. rewrite map_lookup_imap. now destruct (srv !! c).
Qed.

(** C7: a directed message that goes through changes the inbox of the
    client named by [to] and of nobody else; a broadcast is appended to the
    inbox of every other connected client, and the inbox of the sender stays
    as it was.  Each delivery carries the sender the server knows. *)
Theorem delivery_scoping (srv srv' : Server) (sender : PeerId) (msg : ClientMessage) :
  send srv sender msg = Some srv' ->
  match msg with
  | Directed to _ _ =>
      (forall c, c <> to -> srv' !! c = srv !! c) /\
      srv' !! to = (fun inbox => inbox ++ [mkDelivery sender msg]) <$> srv !! to
  | Broadcast _ _ =>
      srv' !! sender = srv !! sender /\
      (forall c, c <> sender ->
                 srv' !! c = (fun inbox => inbox ++ [mkDelivery sender msg]) <$> srv !! c)
  end.
Proof.
  unfold send. destruct (connected srv sender); [|discriminate].
  intros [= <-]. destruct msg as [to type data | type payload].
  - split.
    + intros c Hc. now apply relay_directed_other.
    + apply relay_directed_recipient.
  - split.
    + rewrite relay_broadcast_lookup. rewrite bool_decide_eq_true_2 by reflexivity.
      now destruct (srv !! sender).
    + intros c Hc. rewrite relay_broadcast_lookup.
      now rewrite bool_decide_eq_false_2 by exact Hc.
Qed.

(** One directed message and one broadcast between two clients. *)
Lemma delivery_scoping_witness :
  ((forall c, c <> "peerB" ->
      relay two_clients "peerA" (Directed "peerB" "test" "hello") !! c
      = two_clients !! c) /\
   relay two_clients "peerA" (Directed "peerB" "test" "hello") !! "peerB"
   = (fun inbox => inbox ++ [mkDelivery "peerA" (Directed "peerB" "test" "hello")])
       <$> two_clients !! "peerB") /\
  (relay two_clients "peerA" (Broadcast "broadcast" "hello all") !! "peerA"
   = two_clients !! "peerA" /\
   (forall c, c <> "peerA" ->
      relay two_clients "peerA" (Broadcast "broadcast" "hello all") !! c
      = (fun inbox => inbox ++ [mkDelivery "peerA" (Broadcast "broadcast" "hello all")])
          <$> two_clients !! c)).
Proof.
  split.
  - apply (delivery_scoping two_clients _ "peerA" (Directed "peerB" "test" "hello")).
    reflexivity.
  - apply (delivery_scoping two_clients _ "peerA" (Broadcast "broadcast" "hello all")).
    reflexivity.
Defined.

(** The first scenario: the message of A reaches the inbox of B, with its
    type and payload, and not the inbox of A. *)
Example directed_reaches_recipient :
  relay two_clients "peerA" (Directed "peerB" "test" "hello") !! "peerB"
  = Some [mkDelivery "peerA" (Directed "peerB" "test" "hello")] /\
  relay two_clients "peerA" (Directed "peerB" "test" "hello") !! "peerA" = Some [].
Proof. split; reflexivity. Qed.

End RendezvousFacts.

(** ** Timeout handling of the coordinator *)

Module CoordinatorFacts.
Import Scores Reputation Coordinator.

Lemma find_before {A : Type} (f : A -> bool) (better : list A) (q : A) (worse : list A) :
  f q = true ->
  exists x, List.find f (better ++ q :: worse) = Some x /\ In x (better ++ [q]).
Proof.
  intros Hq. induction better as [|b better IH]; cbn [app List.find].
  - rewrite Hq. exists q. split; [reflexivity | now left].
  - destruct (f b).
    + exists b. split; [reflexivity | now left].
    + destruct IH as (x & Hx & Hin). exists x. split; [exact Hx | now right].
Qed.

Section Passes.

Context {num : Type} `{ScoreNumber num}.
Variables success_step failure_step timeout_share : num.
Variable limit : nat.
Variable deadline : nat -> Z.
Variable selectCandidates : gmap PeerId (ReputationEntry num) -> list PeerId.

Local Abbreviation tchunk :=
  (timeoutChunk success_step failure_step timeout_share deadline).
Local Abbreviation tpass :=
  (timeoutPass success_step failure_step timeout_share deadline).
Local Abbreviation achunk := (assignChunk limit selectCandidates).
Local Abbreviation apass := (assignPass limit selectCandidates).
Local Abbreviation before := (assignPass_before limit selectCandidates).
Local Abbreviation ifail :=
  (integrityFailure success_step failure_step timeout_share).
Local Abbreviation rec := (record success_step failure_step timeout_share).

Lemma set_status_same t i s : chunkStatus (set_status t i s) !! i = Some s.
Proof. cbn [set_status chunkStatus]. apply lookup_insert_eq. Qed.

Lemma set_status_other t i j s :
  j <> i -> chunkStatus (set_status t j s) !! i = chunkStatus t !! i.
Proof. intros Hne. cbn [set_status chunkStatus]. now apply lookup_insert_ne. Qed.

Lemma expired_in_flight now t i p startedAt :
  chunkStatus t !! i = Some (InFlight p startedAt) ->
  (startedAt + deadline i < now)%Z ->
  expired deadline now t i = Some p.
Proof.
  intros Hi Hlate. unfold expired. rewrite Hi.
  apply Z.ltb_lt in Hlate. now rewrite Hlate.
Qed.

Lemma timeoutChunk_expired now st i p :
  expired deadline now (task st) i = Some p ->
  tchunk now st i
  = mkState (set_status (task st) i Pending) (rec (reputation st) p Timeout).
Proof. intros He. unfold timeoutChunk. now rewrite He. Qed.

Lemma timeoutChunk_other now st i j :
  j <> i -> chunkStatus (task (tchunk now st j)) !! i = chunkStatus (task st) !! i.
Proof.
  intros Hne. unfold timeoutChunk.
  destruct (expired deadline now (task st) j); [|reflexivity].
  cbn [task]. now apply set_status_other.
Qed.

Lemma timeoutChunk_pending now st i j :
  chunkStatus (task st) !! i = Some Pending ->
  chunkStatus (task (tchunk now st j)) !! i = Some Pending.
Proof.
  intros Hi. destruct (decide (j = i)) as [-> | Hne].
  - unfold timeoutChunk, expired. now rewrite Hi.
  - now rewrite timeoutChunk_other.
Qed.

Lemma timeout_fold_pending now l st i :
  chunkStatus (task st) !! i = Some Pending ->
  chunkStatus (task (fold_left (tchunk now) l st)) !! i = Some Pending.
Proof.
  revert st. induction l as [|j l IH]; intros st Hi; [exact Hi|].
  cbn [fold_left]. apply IH. now apply timeoutChunk_pending.
Qed.

Lemma timeout_fold_expired now l st i p :
  In i l ->
  expired deadline now (task st) i = Some p ->
  chunkStatus (task (fold_left (tchunk now) l st)) !! i = Some Pending.
Proof.
  revert st. induction l as [|j l IH]; intros st Hin He; [contradiction|].
  cbn [fold_left]. destruct (decide (j = i)) as [-> | Hne].
  - apply timeout_fold_pending.
    rewrite (timeoutChunk_expired now st i p He).
    cbn [task]. apply set_status_same.
  - apply IH.
    + destruct Hin as [Hj | Hin]; [contradiction | exact Hin].
    + unfold expired. rewrite timeoutChunk_other by exact Hne. exact He.
Qed.

(** The pass records one [Timeout] for every chunk that was past its
    deadline when the pass began, in the order of the chunks. *)
Lemma timeout_fold_reputation now l (st0 st : State num) :
  List.NoDup l ->
  (forall i, In i l -> chunkStatus (task st) !! i = chunkStatus (task st0) !! i) ->
  reputation (fold_left (tchunk now) l st)
  = fold_left (fun rep i => match expired deadline now (task st0) i with
                            | Some p => rec rep p Timeout
                            | None => rep
                            end) l (reputation st).
Proof.
  revert st. induction l as [|j l IH]; intros st Hnd Hsame; [reflexivity|].
  cbn [fold_left]. apply List.NoDup_cons_iff in Hnd as [Hj Hnd].
  assert (He : expired deadline now (task st) j = expired deadline now (task st0) j)
    by (unfold expired; rewrite Hsame by (now left); reflexivity).
  rewrite IH; [| exact Hnd |].
  - f_equal. unfold timeoutChunk. rewrite He.
    now destruct (expired deadline now (task st0) j).
  - intros i Hi. rewrite timeoutChunk_other by (intros ->; contradiction).
    apply Hsame. now right.
Qed.

Lemma timeoutPass_reputation now st :
  reputation (tpass now st)
  = fold_left (fun rep i => match expired deadline now (task st) i with
                            | Some p => rec rep p Timeout
                            | None => rep
                            end) (chunk_indices (task st)) (reputation st).
Proof.
  unfold timeoutPass. apply timeout_fold_reputation.
  - unfold chunk_indices. apply List.seq_NoDup.
  - reflexivity.
Qed.

Lemma integrityFailure_in_flight st i p startedAt :
  chunkStatus (task st) !! i = Some (InFlight p startedAt) ->
  ifail st i
  = mkState (set_status (task st) i Pending) (rec (reputation st) p Failure).
Proof. intros Hi. unfold integrityFailure. now rewrite Hi. Qed.

Lemma assignChunk_pending now st i :
  chunkStatus (task st) !! i = Some Pending ->
  achunk now st i
  = match List.find (eligible limit (task st)) (selectCandidates (reputation st)) with
    | Some q => mkState (set_status (task st) i (InFlight q now)) (reputation st)
    | None => st
    end.
Proof. intros Hi. unfold assignChunk. now rewrite Hi. Qed.

Lemma assignChunk_other now st i j :
  j <> i -> chunkStatus (task (achunk now st j)) !! i = chunkStatus (task st) !! i.
Proof.
  intros Hne. unfold assignChunk.
  destruct (chunkStatus (task st) !! j) as [[| | |]|]; try reflexivity.
  destruct (List.find _ _); [|reflexivity].
  cbn [task]. now apply set_status_other.
Qed.

Lemma assignChunk_reputation now st j :
  reputation (achunk now st j) = reputation st.
Proof.
  unfold assignChunk.
  destruct (chunkStatus (task st) !! j) as [[| | |]|]; try reflexivity.
  now destruct (List.find _ _).
Qed.

Lemma assign_fold_other now l st i :
  ~ In i l ->
  chunkStatus (task (fold_left (achunk now) l st)) !! i = chunkStatus (task st) !! i /\
  reputation (fold_left (achunk now) l st) = reputation st.
Proof.
  revert st. induction l as [|j l IH]; intros st Hnin; [now split|].
  cbn [fold_left]. destruct (IH (achunk now st j)) as [Hs Hr].
  - intros Hin. apply Hnin. now right.
  - rewrite Hs, Hr. split.
    + apply assignChunk_other. intros ->. apply Hnin. now left.
    + apply assignChunk_reputation.
Qed.

Lemma seq_split_at i n :
  (i < n)%nat -> seq 0 n = seq 0 i ++ i :: seq (S i) (n - S i).
Proof.
  intros Hlt. replace n with (i + S (n - S i))%nat at 1 by lia.
  rewrite seq_app. reflexivity.
Qed.

Lemma timeoutChunk_size now st j :
  totalChunks (task (tchunk now st j)) = totalChunks (task st).
Proof.
  unfold timeoutChunk. now destruct (expired deadline now (task st) j).
Qed.

Lemma timeout_fold_size now l st :
  totalChunks (task (fold_left (tchunk now) l st)) = totalChunks (task st).
Proof.
  revert st. induction l as [|j l IH]; intros st; [reflexivity|].
  cbn [fold_left]. rewrite IH. apply timeoutChunk_size.
Qed.

(** The pass comes to chunk [i] in a state where the chunk still has the
    status it had when the pass began, the reputation store is the same, and
    nothing later in the pass touches the chunk. *)
Lemma assignPass_reaches now st i :
  (i < totalChunks (task st))%nat ->
  chunkStatus (task (before now st i)) !! i = chunkStatus (task st) !! i /\
  reputation (before now st i) = reputation st /\
  chunkStatus (task (apass now st)) !! i
  = chunkStatus (task (achunk now (before now st i) i)) !! i.
Proof.
  intros Hlt. unfold assignPass, assignPass_before, chunk_indices.
  rewrite (seq_split_at i _ Hlt), fold_left_app. cbn [fold_left].
  destruct (assign_fold_other now (seq 0 i) st i) as [Hs Hr].
  { rewrite in_seq. lia. }
  repeat split; [exact Hs | exact Hr |].
  apply assign_fold_other. rewrite in_seq. lia.
Qed.

(** A chunk that is [Pending] when the pass begins goes to the first
    candidate of the ranking that is below its limit when the pass comes to
    the chunk, and stays [Pending] when there is none. *)
Lemma assignPass_pending now st i :
  (i < totalChunks (task st))%nat ->
  chunkStatus (task st) !! i = Some Pending ->
  chunkStatus (task (apass now st)) !! i
  = match List.find (eligible limit (task (before now st i)))
                    (selectCandidates (reputation st)) with
    | Some q => Some (InFlight q now)
    | None => Some Pending
    end.
Proof.
  intros Hlt Hi.
  destruct (assignPass_reaches now st i Hlt) as (Hs & Hr & ->).
  rewrite Hi in Hs. rewrite (assignChunk_pending now _ i Hs), Hr.
  destruct (List.find _ _); [cbn [task]; apply set_status_same | exact Hs].
Qed.


End Passes.

Local Abbreviation sample_tchunk :=
  (timeoutChunk (1 # 10)%Q (1 # 5)%Q (1 # 2)%Q (fun _ => 1000%Z)).
Local Abbreviation sample_tpass :=
  (timeoutPass (1 # 10)%Q (1 # 5)%Q (1 # 2)%Q (fun _ => 1000%Z)).
Local Abbreviation sample_rec := (record (1 # 10)%Q (1 # 5)%Q (1 # 2)%Q).


(** After the timeout the next pass gives the chunk to peer B, the
    better-ranked candidate, not to peer A again. *)
Example reassigned_to_better_ranked :
  chunkStatus
    (task (assignPass 2 sample_ranking 2001
             (sample_tpass 2000%Z sample_state))) !! 1%nat
  = Some (InFlight "peerB" 2001).
Proof. vm_compute. reflexivity. Qed.


End CoordinatorFacts.

(** ** More on the timezone lookup *)

Module TimezoneMore.
Import Str Geo Rules TimezoneFacts.

Lemma matchers_rule_table : matchers = List.map rule_of rule_table.
Proof. reflexivity. Qed.

Lemma matchers_america_split :
  matchers
  = usWest_matcher :: southAmerica_matcher :: america_matcher :: rules_after_america.
Proof. reflexivity. Qed.

(** *** Letter case *)

Lemma lower_ascii_slash c :
  Ascii.eqb (lower_ascii c) "/" = Ascii.eqb c "/".
Proof. destruct c as [[] [] [] [] [] [] [] []]; reflexivity. Qed.

Lemma has_slash_toLowerCase s : has_slash (toLowerCase s) = has_slash s.
Proof.
  induction s as [|c s IH]; [reflexivity|].
  cbn [toLowerCase has_slash]. now rewrite lower_ascii_slash, IH.
Qed.

(** *** Patterns and the slash *)

Lemma strip_prefix_slash a s rest :
  strip_prefix a s = Some rest ->
  has_slash a || has_slash rest = true -> has_slash s = true.
Proof.
  revert s. induction a as [|c a IH]; intros s Hstrip Hslash.
  - cbn in Hstrip. injection Hstrip as ->. exact Hslash.
  - destruct s as [|b s]; [discriminate|]. cbn [strip_prefix] in Hstrip.
    destruct (Ascii.eqb c b) eqn:Hcb; [|discriminate].
    apply Ascii.eqb_eq in Hcb. subst b.
    cbn [has_slash] in *. destruct (Ascii.eqb c "/"); [reflexivity|].
    cbn [orb] in *. now apply IH.
Qed.

Lemma match_here_slash p s :
  needs_slash p = true -> match_here p s = true -> has_slash s = true.
Proof.
  revert s. induction p as [|alts p IH]; intros s Hneeds Hmatch; [discriminate|].
  cbn [match_here] in Hmatch. apply existsb_exists in Hmatch as (a & Hin & Ha).
  destruct (strip_prefix a s) as [rest|] eqn:Hstrip; [|discriminate].
  apply (strip_prefix_slash a s rest Hstrip).
  cbn [needs_slash existsb] in Hneeds. apply orb_true_iff in Hneeds as [Hall | Hp].
  - rewrite forallb_forall in Hall. now rewrite (Hall a Hin).
  - fold (needs_slash p) in Hp. rewrite (IH rest Hp Ha). apply orb_true_r.
Qed.

Lemma regex_test_slash p s :
  needs_slash p = true -> regex_test p s = true -> has_slash s = true.
Proof.
  intros Hneeds. induction s as [|c s IH]; cbn [regex_test]; intros Htest.
  - rewrite orb_false_r in Htest. now apply (match_here_slash p).
  - apply orb_true_iff in Htest as [Hhere | Hlater].
    + now apply (match_here_slash p).
    + cbn [has_slash]. rewrite (IH Hlater). apply orb_true_r.
Qed.

Lemma rules_need_slash :
  forall m, In m matchers -> forall tz, test m tz = true -> has_slash tz = true.
Proof.
  intros m Hin tz Htest. rewrite matchers_rule_table in Hin.
  apply in_map_iff in Hin as ([p i] & <- & Hin).
  assert (Hall : forallb (fun entry => needs_slash (fst entry)) rule_table = true)
    by (vm_compute; reflexivity).
  rewrite forallb_forall in Hall. specialize (Hall _ Hin).
  now apply (regex_test_slash p).
Qed.

Lemma find_none_all {A : Type} (f : A -> bool) (l : list A) :
  (forall x, In x l -> f x = false) -> List.find f l = None.
Proof.
  induction l as [|x l IH]; intros Hall; [reflexivity|].
  cbn [List.find]. rewrite (Hall x) by (now left).
  apply IH. intros y Hy. apply Hall. now right.
Qed.

Lemma no_slash_no_rule tz :
  has_slash tz = false ->
  List.find (fun m => test m (toLowerCase tz)) matchers = None.
Proof.
  intros Hno. apply find_none_all. intros m Hin.
  destruct (test m (toLowerCase tz)) eqn:Htest; [|reflexivity].
  apply (rules_need_slash m Hin) in Htest.
  rewrite has_slash_toLowerCase in Htest. congruence.
Qed.

(** *** A rule made idle by a later rule of the same region *)

Lemma match_here_app p q s :
  match_here (p ++ q) s = true -> match_here p s = true.
Proof.
  revert s. induction p as [|alts p IH]; intros s Hmatch; [reflexivity|].
  cbn [app match_here] in *. apply existsb_exists in Hmatch as (a & Hin & Ha).
  apply existsb_exists. exists a. split; [exact Hin|].
  destruct (strip_prefix a s) as [rest|]; [now apply IH | discriminate].
Qed.

Lemma regex_test_app p q s :
  regex_test (p ++ q) s = true -> regex_test p s = true.
Proof.
  induction s as [|c s IH]; cbn [regex_test]; intros Htest.
  - rewrite orb_false_r in *. now apply (match_here_app p q).
  - apply orb_true_iff in Htest as [Hhere | Hlater].
    + now rewrite (match_here_app p q _ Hhere).
    + rewrite (IH Hlater). apply orb_true_r.
Qed.

Section Lookup.

Context {num : Type}.
Variable GEO_REGIONS : list (GeoRegionConfig num).
Variable UNKNOWN_REGION_ID : string.

Local Abbreviation candidates := (REGION_CANDIDATES GEO_REGIONS UNKNOWN_REGION_ID).
Local Abbreviation lookup_region := (find_region GEO_REGIONS UNKNOWN_REGION_ID).
Local Abbreviation loop := (matcher_loop GEO_REGIONS UNKNOWN_REGION_ID).
Local Abbreviation infer := (inferRegionFromTimezone GEO_REGIONS UNKNOWN_REGION_ID).

(** X2: every rule asks for a [/]; an identifier without one, such as "UTC"
    or the empty string, resolves to none whatever the catalogue. *)
Theorem infer_without_slash (timezone : string) :
  has_slash timezone = false -> infer timezone = None.
Proof.
  intros Hno. unfold inferRegionFromTimezone.
  apply loop_no_match. now apply no_slash_no_rule.
Qed.

Lemma loop_cons_congr m l1 l2 tz :
  loop l1 tz = loop l2 tz -> loop (m :: l1) tz = loop (m :: l2) tz.
Proof. intros Heq. cbn [matcher_loop]. now rewrite Heq. Qed.

Lemma loop_app_congr pre l1 l2 tz :
  loop l1 tz = loop l2 tz -> loop (pre ++ l1) tz = loop (pre ++ l2) tz.
Proof.
  intros Heq. induction pre as [|m pre IH]; [exact Heq|].
  cbn [app]. now apply loop_cons_congr.
Qed.

(** Rules of one region whose last one matches end on that region. *)
Lemma loop_same_region mid m2 post tz rid r :
  (forall m, In m mid -> regionId m = rid) -> regionId m2 = rid ->
  lookup_region rid = Some r -> test m2 tz = true ->
  loop (mid ++ m2 :: post) tz = Some r.
Proof.
  intros Hmid Hm2 Hr Ht. induction mid as [|m mid IH]; cbn [app].
  - apply loop_hit; [exact Ht | now rewrite Hm2].
  - destruct (test m tz) eqn:Hm.
    + apply loop_hit; [exact Hm|]. rewrite (Hmid m) by (now left). exact Hr.
    + rewrite loop_skip_test by exact Hm. apply IH.
      intros m' Hm'. apply Hmid. now right.
Qed.

(** A rule can go when a later rule of the same region matches whatever it
    matches and only rules of that region stand between the two. *)
Lemma loop_drop_shadowed pre m1 mid m2 post tz :
  (forall m, In m mid -> regionId m = regionId m1) ->
  regionId m2 = regionId m1 ->
  (test m1 tz = true -> test m2 tz = true) ->
  loop (pre ++ m1 :: mid ++ m2 :: post) tz = loop (pre ++ mid ++ m2 :: post) tz.
Proof.
  intros Hmid Hm2 Himp. apply loop_app_congr.
  destruct (test m1 tz) eqn:Ht; [|now apply loop_skip_test].
  destruct (lookup_region (regionId m1)) as [r|] eqn:Hr;
    [|now apply loop_skip_region].
  rewrite (loop_hit _ _ _ _ _ _ Ht Hr). symmetry.
  apply (loop_same_region mid m2 post tz (regionId m1) r); auto.
Qed.

(** X4: the city lists of the Asia-Pacific, Oceania and Africa rules change
    nothing: each is followed by a catch-all of the same region that matches
    whatever the list matches.  Without the three rules the loop gives the
    same result on every string and for every catalogue. *)
Theorem city_lists_idle (tz : string) :
  loop matchers tz = loop matchers_without_city_lists tz.
Proof.
  transitivity
    (loop (rules_to_asiaEast
           ++ asiaPacific_cities_matcher
           :: [indian_matcher] ++ asia_matcher
           :: oceania_cities_matcher :: oceania_matcher
           :: africa_matcher :: atlantic_rules) tz).
  - change matchers
      with ((rules_to_asiaEast
             ++ [asiaPacific_cities_matcher; indian_matcher; asia_matcher;
                 oceania_cities_matcher; oceania_matcher])
            ++ africa_cities_matcher :: [] ++ africa_matcher :: atlantic_rules).
    rewrite loop_drop_shadowed.
    + cbn [app]. rewrite <- app_assoc. reflexivity.
    + intros m [].
    + reflexivity.
    + cbn [test africa_cities_matcher africa_matcher].
      apply (regex_test_app africa_any_pattern [_]).
  - transitivity
      (loop (rules_to_asiaEast
             ++ asiaPacific_cities_matcher
             :: [indian_matcher] ++ asia_matcher
             :: oceania_matcher :: africa_matcher :: atlantic_rules) tz).
    + change (rules_to_asiaEast
              ++ asiaPacific_cities_matcher
              :: [indian_matcher] ++ asia_matcher
              :: oceania_cities_matcher :: oceania_matcher
              :: africa_matcher :: atlantic_rules)
        with ((rules_to_asiaEast
               ++ [asiaPacific_cities_matcher; indian_matcher; asia_matcher])
              ++ oceania_cities_matcher :: [] ++ oceania_matcher
              :: africa_matcher :: atlantic_rules).
      rewrite loop_drop_shadowed.
      * cbn [app]. rewrite <- app_assoc. reflexivity.
      * intros m [].
      * reflexivity.
      * cbn [test oceania_cities_matcher oceania_matcher].
        apply (regex_test_app oceania_any_pattern [_]).
    + unfold matchers_without_city_lists.
      rewrite loop_drop_shadowed; [reflexivity | | reflexivity |].
      * intros m [<- | []]. reflexivity.
      * cbn [test asiaPacific_cities_matcher asia_matcher].
        apply (regex_test_app asia_pattern [_]).
Qed.

(** One rule either decides, with a region of its own id, or leaves the
    result to the later rules. *)
Lemma loop_cons_cases m rest tz :
  (exists r, loop (m :: rest) tz = Some r /\ id r = regionId m) \/
  loop (m :: rest) tz = loop rest tz.
Proof.
  destruct (test m tz) eqn:Ht; [|right; now apply loop_skip_test].
  destruct (lookup_region (regionId m)) as [r|] eqn:Hr;
    [|right; now apply loop_skip_region].
  left. exists r. split; [now apply loop_hit|].
  now apply find_region_some in Hr.
Qed.

(** X3: the generic Americas rule is a catch-all: when the catalogue has a
    [usEast] region, an identifier with "america/" in it always resolves, to
    the [usWest] region, the [southAmerica] region or that [usEast] region. *)
Theorem america_catch_all (timezone : string) (e : GeoRegionConfig num) :
  regex_test america_pattern (toLowerCase timezone) = true ->
  lookup_region "usEast" = Some e ->
  exists r, infer timezone = Some r /\
            (id r = "usWest" \/ id r = "southAmerica" \/ r = e).
Proof.
  intros Ham He. unfold inferRegionFromTimezone. rewrite matchers_america_split.
  destruct (loop_cons_cases usWest_matcher
              (southAmerica_matcher :: america_matcher :: rules_after_america)
              (toLowerCase timezone)) as [(r & Hr & Hid) | Hskip].
  { exists r. split; [exact Hr | now left]. }
  rewrite Hskip.
  destruct (loop_cons_cases southAmerica_matcher
              (america_matcher :: rules_after_america)
              (toLowerCase timezone)) as [(r & Hr & Hid) | Hskip'].
  { exists r. split; [exact Hr | right; now left]. }
  rewrite Hskip'. exists e. split; [|right; now right].
  now apply loop_hit.
Qed.

Lemma find_split {A : Type} (f : A -> bool) (l : list A) (x : A) :
  List.find f l = Some x ->
  exists pre post, l = pre ++ x :: post /\ (forall y, In y pre -> f y = false).
Proof.
  induction l as [|y l IH]; cbn [List.find]; [discriminate|].
  destruct (f y) eqn:Hy.
  - intros [= <-]. exists [], l. split; [reflexivity | intros z []].
  - intros Hfind. destruct (IH Hfind) as (pre & post & -> & Hpre).
    exists (y :: pre), post. split; [reflexivity|].
    intros z [<- | Hz]; auto.
Qed.

Lemma rule_ids_complete m : In m matchers -> In (regionId m) rule_ids.
Proof.
  intros Hin.
  assert (Hall : forallb (fun m => existsb (String.eqb (regionId m)) rule_ids)
                         matchers = true) by (vm_compute; reflexivity).
  rewrite forallb_forall in Hall. specialize (Hall m Hin).
  apply existsb_exists in Hall as (i & Hi & Heq).
  apply String.eqb_eq in Heq. now rewrite Heq.
Qed.

(** X8: what the lookup can return: a catalogue region that is not the
    sentinel, whose id is one of the nine ids the rules name, and that is the
    first candidate of the catalogue with that id. *)
Theorem infer_range (timezone : string) (r : GeoRegionConfig num) :
  infer timezone = Some r ->
  In r GEO_REGIONS /\ id r <> UNKNOWN_REGION_ID /\ In (id r) rule_ids /\
  exists pre post,
    candidates = pre ++ r :: post /\ (forall r', In r' pre -> id r' <> id r).
Proof.
  intros Hinfer. unfold inferRegionFromTimezone in Hinfer.
  apply loop_some in Hinfer as (m & Hm & _ & Hr).
  pose proof (find_region_some _ _ _ _ Hr) as [Hin Hid].
  pose proof (candidate_not_sentinel _ _ _ Hin) as [Hgeo Hsent].
  repeat split; auto.
  - rewrite Hid. now apply rule_ids_complete.
  - unfold find_region in Hr. apply find_split in Hr as (pre & post & Hsplit & Hpre).
    exists pre, post. split; [exact Hsplit|].
    intros r' Hr'. rewrite Hid. apply String.eqb_neq. now apply Hpre.
Qed.

(** Without a region to find no rule decides. *)
Lemma loop_no_region ms tz :
  (forall rid, lookup_region rid = None) -> loop ms tz = None.
Proof.
  intros Hnone. induction ms as [|m ms IH]; [reflexivity|].
  now rewrite loop_skip_region by apply Hnone.
Qed.

End Lookup.

(** "UTC" has no slash. *)
Lemma infer_without_slash_witness :
  inferRegionFromTimezone full_catalogue "unknown" "UTC" = None.
Proof. apply infer_without_slash. reflexivity. Defined.

(** "America/New_York" is in no city list. *)
Lemma america_catch_all_witness :
  exists r, inferRegionFromTimezone full_catalogue "unknown" "America/New_York" = Some r /\
            (id r = "usWest" \/ id r = "southAmerica" \/
             r = mkRegion "usEast" 39 (-77))%Z.
Proof.
  apply america_catch_all; reflexivity.
Defined.

(** "Europe/Berlin" at the full catalogue. *)
Lemma infer_range_witness :
  In (mkRegion "euCentral" 50 9)%Z full_catalogue /\
  "euCentral" <> "unknown" /\ In "euCentral" rule_ids /\
  exists pre post,
    REGION_CANDIDATES full_catalogue "unknown"
    = pre ++ (mkRegion "euCentral" 50 9)%Z :: post /\
    (forall r', In r' pre -> id r' <> "euCentral").
Proof.
  apply (infer_range full_catalogue "unknown" "Europe/Berlin"
           (mkRegion "euCentral" 50 9)%Z).
  reflexivity.
Defined.

End TimezoneMore.

(** ** More on the coordinate lookup and on detection *)

Module NearestMore.
Import Str Geo Rules TimezoneFacts NearestFacts.

Section Nearest.

Context {num : Type} `{JsNumber num}.
Variable GEO_REGIONS : list (GeoRegionConfig num).
Variable UNKNOWN_REGION_ID : string.

Local Abbreviation candidates := (REGION_CANDIDATES GEO_REGIONS UNKNOWN_REGION_ID).
Local Abbreviation fallback_region := (FALLBACK_REGION GEO_REGIONS UNKNOWN_REGION_ID).
Local Abbreviation nearest := (nearestRegion GEO_REGIONS UNKNOWN_REGION_ID).
Local Abbreviation infer := (inferRegionFromTimezone GEO_REGIONS UNKNOWN_REGION_ID).
Local Abbreviation detect := (detectUserRegion GEO_REGIONS UNKNOWN_REGION_ID).

(** X5: a coordinate none of whose distances is below [+Infinity] (a [NaN]
    coordinate makes them all [NaN]) gets the fallback region, not the first
    region of the catalogue. *)
Theorem nearest_without_numbers (lat0 lng0 : num) :
  (forall r, In r candidates ->
             num_lt (distance_to lat0 lng0 r) Number_POSITIVE_INFINITY = false) ->
  nearest lat0 lng0 = fallback_region.
Proof.
  intros Hnan. unfold nearestRegion.
  now rewrite nearest_loop_stay.
Qed.

(** X6: the lookup returns nothing exactly when the catalogue has no region
    but the sentinel; then the timezone lookup returns none as well and
    detection answers with no region, tagged [fallback]. *)
Theorem empty_catalogue (lat0 lng0 : num) :
  (nearestRegion GEO_REGIONS UNKNOWN_REGION_ID lat0 lng0 = None
   <-> REGION_CANDIDATES GEO_REGIONS UNKNOWN_REGION_ID = []) /\
  (REGION_CANDIDATES GEO_REGIONS UNKNOWN_REGION_ID = [] ->
   (forall timezone,
       inferRegionFromTimezone GEO_REGIONS UNKNOWN_REGION_ID timezone = None) /\
   (forall env,
       detectUserRegion GEO_REGIONS UNKNOWN_REGION_ID env = mkResult None fallback)).
Proof.
  assert (Hnearest : candidates = [] -> forall a b, nearest a b = None).
  { intros Hempty a b. unfold nearestRegion, FALLBACK_REGION. now rewrite Hempty. }
  assert (Hinfer : candidates = [] -> forall timezone, infer timezone = None).
  { intros Hempty timezone. unfold inferRegionFromTimezone.
    apply TimezoneMore.loop_no_region. intros rid. unfold find_region.
    now rewrite Hempty. }
  split; [split|].
  - intros Hnone. destruct candidates as [|c cs] eqn:Hc; [reflexivity|].
    destruct (nearest_candidate GEO_REGIONS UNKNOWN_REGION_ID lat0 lng0)
      as (r & Hr & _); [rewrite Hc; discriminate | congruence].
  - intros Hempty. now apply Hnearest.
  - intros Hempty. split; [now apply Hinfer|].
    intros env. unfold detectUserRegion, detectFromBrowserGeolocation, detectFromTimezone.
    assert (Hfb : fallback_region = None)
      by (unfold FALLBACK_REGION; now rewrite Hempty).
    destruct (coords env) as [[latitude longitude]|].
    + rewrite (Hnearest Hempty).
      destruct (timeZone env) as [tz|]; [|now rewrite Hfb].
      destruct (String.eqb tz ""); [now rewrite Hfb|].
      now rewrite (Hinfer Hempty), Hfb.
    + destruct (timeZone env) as [tz|]; [|now rewrite Hfb].
      destruct (String.eqb tz ""); [now rewrite Hfb|].
      now rewrite (Hinfer Hempty), Hfb.
Qed.

(** X7: with a region in the catalogue a browser position always wins: the
    answer is the nearest region, tagged [browser], whatever the timezone
    is.  The timezone is used only without a position, and the answer is
    tagged [fallback] exactly when there is no position and the timezone
    resolves to none. *)
Theorem detect_precedence (env : Environment) :
  candidates <> [] ->
  (forall latitude longitude,
      coords env = Some (latitude, longitude) ->
      detect env = mkResult (nearest latitude longitude) browser) /\
  (forall r,
      coords env = None ->
      detectFromTimezone GEO_REGIONS UNKNOWN_REGION_ID env = Some r ->
      detect env = mkResult (Some r) timezone_source) /\
  (source (detect env) = fallback <->
   coords env = None /\
   detectFromTimezone GEO_REGIONS UNKNOWN_REGION_ID env = None).
Proof.
  intros Hne. unfold detectUserRegion, detectFromBrowserGeolocation.
  split; [|split].
  - intros latitude longitude ->.
    destruct (nearest_candidate GEO_REGIONS UNKNOWN_REGION_ID latitude longitude Hne)
      as (r & -> & _). reflexivity.
  - intros r -> ->. reflexivity.
  - destruct (coords env) as [[latitude longitude]|].
    + destruct (nearest_candidate GEO_REGIONS UNKNOWN_REGION_ID latitude longitude Hne)
        as (r & -> & _). cbn [source]. split; [discriminate | intros [? _]; discriminate].
    + destruct (detectFromTimezone _ _ env) as [r|]; cbn [source].
      * split; [discriminate | intros [_ ?]; discriminate].
      * split; auto.
Qed.

(** X10: an identifier without a slash leaves detection to the coordinate
    lookup: without a position the answer is the fallback region, tagged
    [fallback], for every catalogue. *)
Theorem detect_without_slash (timezone : string) :
  has_slash timezone = false ->
  detect (mkEnv None (Some timezone)) = mkResult fallback_region fallback.
Proof.
  intros Hno. unfold detectUserRegion, detectFromBrowserGeolocation, detectFromTimezone.
  cbn [coords timeZone]. destruct (String.eqb timezone ""); [reflexivity|].
  unfold inferRegionFromTimezone.
  now rewrite loop_no_match by (now apply TimezoneMore.no_slash_no_rule).
Qed.

Section Ordered.

(** The order laws of [<], and one more that holds of IEEE-754 doubles and of
    the exact numbers: what is not below [+Infinity] ([NaN], [+Infinity]) is
    below nothing. *)
Hypothesis lt_trans :
  forall x y z : num, num_lt x y = true -> num_lt y z = true -> num_lt x z = true.
Hypothesis lt_negtrans :
  forall x y z : num, is_number y ->
    num_lt x y = false -> num_lt y z = false -> num_lt x z = false.
Hypothesis lt_not_number :
  forall x y : num, num_lt x Number_POSITIVE_INFINITY = false -> num_lt x y = false.

Lemma nearest_loop_with_distance lat0 lng0 regions st :
  nearest_loop lat0 lng0 regions st
  = nearest_loop lat0 lng0 (with_distance lat0 lng0 regions) st.
Proof.
  revert st. induction regions as [|x regions IH]; intros st; [reflexivity|].
  rewrite nearest_loop_cons. unfold with_distance. cbn [List.filter].
  fold (with_distance lat0 lng0 regions).
  destruct (num_lt (distance_to lat0 lng0 x) Number_POSITIVE_INFINITY) eqn:Hx.
  - rewrite nearest_loop_cons. apply IH.
  - destruct st as [closest minDistance].
    rewrite nearest_step_far by (now apply lt_not_number). apply IH.
Qed.

(** X11: regions whose distance is not a number are passed over: as soon as
    one candidate has a distance below [+Infinity], the lookup returns the
    first minimum among the candidates that have one. *)
Theorem nearest_skips_not_numbers (lat0 lng0 : num) :
  with_distance lat0 lng0 candidates <> [] ->
  exists r,
    nearest lat0 lng0 = Some r /\
    first_minimum lat0 lng0 (with_distance lat0 lng0 candidates) r.
Proof.
  intros Hne. unfold nearestRegion. rewrite nearest_loop_with_distance.
  assert (Hnum : forall r, In r (with_distance lat0 lng0 candidates) ->
                           is_number (distance_to lat0 lng0 r)).
  { intros r Hr. unfold with_distance in Hr. apply filter_In in Hr as [_ Hr].
    exact Hr. }
  destruct (with_distance lat0 lng0 candidates) as [|c cs]; [contradiction|].
  rewrite nearest_loop_cons.
  rewrite nearest_step_near by (apply Hnum; now left).
  destruct (nearest_loop_invariant lt_trans lt_negtrans lat0 lng0 cs [] c [])
    as (r & Hloop & Hmin).
  - intros r' [].
  - intros r' [].
  - intros r' Hr'. apply Hnum. now right.
  - exists r. rewrite Hloop. split; [reflexivity | exact Hmin].
Qed.

End Ordered.

End Nearest.

End NearestMore.

(** ** More on the exact distance *)

Module ExactMore.
Import Str Geo Exact Rules ExactFacts NearestFacts NearestMore Lra.

Local Open Scope R_scope.

Lemma atlantic_candidates :
  REGION_CANDIDATES atlantic_catalogue "unknown"
  = [ mkRegion "euWest" (Finite 53) (Finite (-6));
      mkRegion "usEast" (Finite 39) (Finite (-77)) ].
Proof. reflexivity. Qed.

(** A [NaN] position at the Atlantic catalogue: the answer is [usEast], the
    second region. *)
Lemma nearest_without_numbers_witness :
  nearestRegion atlantic_catalogue "unknown" NaN NaN
  = FALLBACK_REGION atlantic_catalogue "unknown" /\
  FALLBACK_REGION atlantic_catalogue "unknown"
  = Some (mkRegion "usEast" (Finite 39) (Finite (-77))).
Proof.
  split; [|reflexivity].
  apply nearest_without_numbers. intros r _.
  unfold distance_to. now rewrite haversine_nan.
Defined.

(** The catalogue that holds the sentinel only. *)
Lemma empty_catalogue_witness :
  nearestRegion sentinel_catalogue "unknown" (Finite 0) (Finite 0) = None /\
  (forall timezone, inferRegionFromTimezone sentinel_catalogue "unknown" timezone = None) /\
  (forall env, detectUserRegion sentinel_catalogue "unknown" env = mkResult None fallback).
Proof.
  destruct (empty_catalogue sentinel_catalogue "unknown" (Finite 0) (Finite 0))
    as [Hiff Hrest].
  split; [now apply Hiff | now apply Hrest].
Defined.

(** A position and a timezone at the Atlantic catalogue: the position wins. *)
Lemma detect_precedence_witness :
  detectUserRegion atlantic_catalogue "unknown"
    (mkEnv (Some (Finite 53, Finite (-6))) (Some "America/New_York"%string))
  = mkResult (nearestRegion atlantic_catalogue "unknown" (Finite 53) (Finite (-6)))
             browser.
Proof.
  apply (detect_precedence atlantic_catalogue "unknown").
  - rewrite atlantic_candidates. discriminate.
  - reflexivity.
Defined.

(** "UTC" and no position at the Atlantic catalogue. *)
Lemma detect_without_slash_witness :
  detectUserRegion atlantic_catalogue "unknown" (mkEnv None (Some "UTC"%string))
  = mkResult (FALLBACK_REGION atlantic_catalogue "unknown") fallback.
Proof. apply detect_without_slash. reflexivity. Defined.

Lemma xlt_not_number (x y : xnum) :
  num_lt x Number_POSITIVE_INFINITY = false -> num_lt x y = false.
Proof. destruct x; [discriminate | reflexivity | reflexivity]. Qed.

Lemma patchy_with_distance :
  with_distance (Finite 39) (Finite (-77)) (REGION_CANDIDATES patchy_catalogue "unknown")
  = [ mkRegion "usEast" (Finite 39) (Finite (-77)) ].
Proof.
  change (REGION_CANDIDATES patchy_catalogue "unknown")
    with [ mkRegion "euWest" NaN NaN;
           mkRegion "usEast" (Finite 39) (Finite (-77)) ].
  unfold with_distance, distance_to. cbn [List.filter lat lng].
  rewrite haversine_nan by reflexivity. rewrite haversine_finite. reflexivity.
Qed.

(** The region without coordinates comes first in the catalogue and is
    passed over. *)
Lemma nearest_skips_not_numbers_witness :
  exists r,
    nearestRegion patchy_catalogue "unknown" (Finite 39) (Finite (-77)) = Some r /\
    first_minimum (Finite 39) (Finite (-77))
      (with_distance (Finite 39) (Finite (-77))
         (REGION_CANDIDATES patchy_catalogue "unknown")) r.
Proof.
  apply (nearest_skips_not_numbers patchy_catalogue "unknown"
           xlt_trans xlt_negtrans xlt_not_number).
  rewrite patchy_with_distance. discriminate.
Defined.

End ExactMore.
